(** * SQLite tracing instrumentation: a shallow embedding of [lib/index.js]

    The module patches five methods of the [node:sqlite] client
    ([DatabaseSync.prototype.exec], [DatabaseSync.prototype.prepare] and
    [StatementSync.prototype.{all,get,run}]) so that every call runs inside
    a trace span.  The embedding keeps the JavaScript view of the program:

    - values are primitives, references to heap objects, or function
      objects; objects live in a shared heap and are updated in place;
    - a computation threads the heap, may complete normally or by throwing
      a value, and leaves a trace of the calls it makes on its
      collaborators (the tracing API and the wrapped functions);
    - [try]/[catch]/[finally] is a combinator with the language's
      completion rules. *)

From Stdlib Require Import ZArith.
From stdpp Require Import base gmap strings list fin_maps.

Local Open Scope string_scope.
Local Open Scope list_scope.

(** ** Values *)

Abbreviation loc := positive (only parsing).
Abbreviation span := nat (only parsing).

(** The three closures the patch callback creates, named as in the source:
    [function exec], [function prepare], [function statementExecution]. *)
Inductive wrapper := ExecWrapper | PrepareWrapper | StatementExecution.

(** A function object is either a function of the database client (known by
    its [name] property and an identity) or one of the three closures,
    which captures the variable [original].  Two closures of the same kind
    around the same function are not told apart. *)
Inductive func :=
  | Native (name : string) (id : nat)
  | Closure (w : wrapper) (original : func).

Inductive value :=
  | VUndefined
  | VNull
  | VBool (b : bool)
  | VNum (n : Z)
  | VStr (s : string)
  | VObj (l : loc)
  | VFun (f : func).

#[global] Instance wrapper_eq_dec : EqDecision wrapper.
Proof. solve_decision. Defined.
#[global] Instance func_eq_dec : EqDecision func.
Proof. solve_decision. Defined.
#[global] Instance value_eq_dec : EqDecision value.
Proof. solve_decision. Defined.

(** [f.name] *)
Definition fname (f : func) : string :=
  match f with
  | Native name _ => name
  | Closure ExecWrapper _ => "exec"
  | Closure PrepareWrapper _ => "prepare"
  | Closure StatementExecution _ => "statementExecution"
  end.

(** [value == null] *)
Definition nullish (v : value) : bool :=
  match v with
  | VUndefined | VNull => true
  | _ => false
  end.

(** ** The tracing API, as far as the module uses it *)

Inductive SpanKind := INTERNAL | SERVER | CLIENT | PRODUCER | CONSUMER.
Inductive SpanStatusCode := UNSET | OK | ERROR.

(** The argument of [span.setStatus]: [{ code }] or [{ code, message }].
    [message = None] is an object without the key; [Some VUndefined] is the
    key present with the value [undefined]. *)
Record SpanStatus := { code : SpanStatusCode; message : option value }.

(** The second argument of [tracer.startSpan]. *)
Record SpanOptions := { kind : SpanKind; attributes : gmap string value }.

(** A tracer is obtained from a provider for an instrumentation scope. *)
Record tracer := Tracer {
  tracer_provider : option nat;
  scope_name : string;
  scope_version : string
}.

(** Modelled from the spec: the attribute catalog of section 4.1.  The
    three constants are imported from the semantic-conventions package,
    which is not part of the sources; the spec fixes the system value to
    "sqlite" and names a database-system key and a query-text key. *)
Definition ATTR_DB_SYSTEM : string := "db.system".
Definition ATTR_DB_QUERY_TEXT : string := "db.query.text".
Definition DB_SYSTEM_VALUE_SQLITE : string := "sqlite".

Definition STMT_METHODS : list string := ["all"; "get"; "run"].

(** ** Observable calls *)

Inductive event :=
  | EvStartSpan (sp : span) (tr : tracer) (name : string) (opts : SpanOptions)
  | EvSetStatus (sp : span) (st : SpanStatus)
  | EvEnd (sp : span)
  | EvApply (name : string) (self : value) (params : list value).

(** ** Program state *)

(** Modelled from the spec: the instrumentation base class of the tracing
    toolkit (section 4.4 and section 3, tracer handle), which is not part of
    the sources.  It keeps the instrumentation scope, the tracer obtained
    for that scope, the enabled flag and the exports of the target module
    once it has been loaded. *)
Record instrumentation := Instrumentation {
  instrumentationName : string;
  instrumentationVersion : string;
  _config : value;
  _tracer : tracer;
  _enabled : bool;
  _moduleExports : option value
}.

Record state := State {
  heap : gmap loc (gmap string value);
  patches : gmap (loc * string) func;
  instr : instrumentation;
  next_span : nat
}.

Definition set_heap (h : gmap loc (gmap string value)) (s : state) : state :=
  State h (patches s) (instr s) (next_span s).
Definition set_patches (p : gmap (loc * string) func) (s : state) : state :=
  State (heap s) p (instr s) (next_span s).
Definition set_instr (i : instrumentation) (s : state) : state :=
  State (heap s) (patches s) i (next_span s).
Definition set_next_span (n : nat) (s : state) : state :=
  State (heap s) (patches s) (instr s) n.

(** ** Computations *)

Inductive completion (A : Type) :=
  | Normal (a : A)
  | Throw (e : value).
Arguments Normal {A} a.
Arguments Throw {A} e.

Record result (A : Type) := Res {
  outcome : completion A;
  final : state;
  trace : list event
}.
Arguments Res {A} outcome final trace.
Arguments outcome {A} r.
Arguments final {A} r.
Arguments trace {A} r.

Definition M (A : Type) : Type := state -> result A.

Definition ret {A} (a : A) : M A := fun s => Res (Normal a) s [].

Definition throw {A} (e : value) : M A := fun s => Res (Throw e) s [].

Definition bind {A B} (m : M A) (f : A -> M B) : M B := fun s =>
  match m s with
  | Res (Normal a) s1 l1 =>
      let r := f a s1 in Res (outcome r) (final r) (l1 ++ trace r)
  | Res (Throw e) s1 l1 => Res (Throw e) s1 l1
  end.

Notation "'let*' x ':=' m 'in' k" := (bind m (fun x => k))
  (at level 10, x name, m at level 100, k at level 200).
Notation "m '>>' k" := (bind m (fun _ => k))
  (at level 190, right associativity).

Definition emit (e : event) : M unit := fun s => Res (Normal tt) s [e].

(** [try { body } catch (err) { handler } finally { finalizer }]: the
    handler runs when the body throws; the finalizer always runs, and the
    statement completes as the body (or the handler) did unless the
    finalizer itself throws. *)
Definition try_catch_finally {A} (body : M A) (handler : value -> M A)
    (finalizer : M unit) : M A := fun s =>
  let r1 := body s in
  let r2 :=
    match outcome r1 with
    | Normal _ => r1
    | Throw err =>
        let r := handler err (final r1) in
        Res (outcome r) (final r) (trace r1 ++ trace r)
    end in
  let r3 := finalizer (final r2) in
  match outcome r3 with
  | Normal _ => Res (outcome r2) (final r3) (trace r2 ++ trace r3)
  | Throw e => Res (Throw e) (final r3) (trace r2 ++ trace r3)
  end.

(** ** Objects *)

(** An error raised by the language itself or by a collaborator: a fresh
    object with a [name] and a [message]. *)
Definition new_error (name msg : string) (h : gmap loc (gmap string value))
    : loc * gmap loc (gmap string value) :=
  let l := fresh (dom h) in
  (l, <[l := {[ "name" := VStr name; "message" := VStr msg ]}]> h).

Definition throw_error {A} (name msg : string) : M A := fun s =>
  let '(l, h) := new_error name msg (heap s) in
  Res (Throw (VObj l)) (set_heap h s) [].

(** The properties readable on a value.  A heap object is the map of the
    data properties that can be read on it, its own or inherited; a
    function object has its [name]; the properties the program reads
    ([message], [sourceSQL], [prototype] and the names of the exports and
    methods) are not found on a primitive. *)
Definition read_prop (h : gmap loc (gmap string value)) (v : value)
    (key : string) : value :=
  match v with
  | VObj l => default VUndefined (h !! l ≫= (.!! key))
  | VFun f => if decide (key = "name") then VStr (fname f) else VUndefined
  | _ => VUndefined
  end.

(** The message of the [TypeError] for reading [key] from [undefined] or
    [null]. *)
Definition cannot_read (v : value) (key : string) : string :=
  "Cannot read properties of "
    +:+ (match v with VNull => "null" | _ => "undefined" end)
    +:+ " (reading '" +:+ key +:+ "')".

(** [v.key]: a [TypeError] when [v] is [undefined] or [null]. *)
Definition get_prop (v : value) (key : string) : M value := fun s =>
  if nullish v
  then throw_error "TypeError" (cannot_read v key) s
  else Res (Normal (read_prop (heap s) v key)) s [].

(** [v?.key] *)
Definition get_prop_opt (v : value) (key : string) : M value :=
  if nullish v then ret VUndefined else get_prop v key.

(** ** The span object *)

(** Modelled from the spec: the span interface of section 6,
    [setStatus({code, message?})] and [end()].  Both belong to the tracing
    API, which is not part of the sources; a call is recorded and returns
    normally. *)
Definition span_setStatus (sp : span) (st : SpanStatus) : M unit :=
  emit (EvSetStatus sp st).

(** Modelled from the spec: [span.end()] of section 6, see above. *)
Definition span_end (sp : span) : M unit := emit (EvEnd sp).

(** Modelled from the spec: [tracer.startSpan(name, {kind, attributes})]
    of section 6 hands out a new span object. *)
Definition startSpan (tr : tracer) (name : string) (opts : SpanOptions)
    : M span := fun s =>
  Res (Normal (next_span s)) (set_next_span (S (next_span s)) s)
      [EvStartSpan (next_span s) tr name opts].

(** Modelled from the spec: the tracer accessor of section 6,
    [instr.tracer], gives the tracer the instrumentation currently holds. *)
Definition instr_tracer : M tracer := fun s =>
  Res (Normal (_tracer (instr s))) s [].

(** ** Callable things *)

(** What [genericWrap] needs of [original]: its [name] and what
    [original.apply(self, params)] does. *)
Record operation := Operation {
  op_name : string;
  op_code : value -> list value -> M value
}.

(** [original.apply(self, params)] *)
Definition op_apply (original : operation) (self : value)
    (params : list value) : M value :=
  emit (EvApply (op_name original) self params) >>
  op_code original self params.

(** ** [genericWrap] (lib/index.js, lines 84-99) *)

Definition genericWrap (original : operation) (self : value)
    (params : list value) (sp : span) : M value :=
  try_catch_finally
    (let* result := op_apply original self params in
     span_setStatus sp {| code := OK; message := None |} >>
     ret result)
    (fun err =>
       let* msg := get_prop_opt err "message" in
       span_setStatus sp {| code := ERROR; message := Some msg |} >>
       throw err)
    (span_end sp).

(** ** The three closures of the patch callback (lines 31-67) *)

(** [function exec(...params)] *)
Definition exec (original : operation) (this : value)
    (params : list value) : M value :=
  let* tr := instr_tracer in
  let* sp := startSpan tr (op_name original)
    {| kind := CLIENT;
       attributes := {[ ATTR_DB_SYSTEM := VStr DB_SYSTEM_VALUE_SQLITE ]} |} in
  genericWrap original this params sp.

(** [function prepare(...params)]; [params[0]] is [undefined] for a call
    without arguments. *)
Definition prepare (original : operation) (this : value)
    (params : list value) : M value :=
  let* tr := instr_tracer in
  let* sp := startSpan tr (op_name original)
    {| kind := CLIENT;
       attributes :=
         <[ ATTR_DB_QUERY_TEXT := default VUndefined (params !! 0%nat) ]>
           {[ ATTR_DB_SYSTEM := VStr DB_SYSTEM_VALUE_SQLITE ]} |} in
  genericWrap original this params sp.

(** [function statementExecution(...params)]; [this.sourceSQL] is read
    while the argument of [startSpan] is built. *)
Definition statementExecution (original : operation) (this : value)
    (params : list value) : M value :=
  let* tr := instr_tracer in
  let* sql := get_prop this "sourceSQL" in
  let* sp := startSpan tr (op_name original)
    {| kind := CLIENT;
       attributes :=
         <[ ATTR_DB_QUERY_TEXT := sql ]>
           {[ ATTR_DB_SYSTEM := VStr DB_SYSTEM_VALUE_SQLITE ]} |} in
  genericWrap original this params sp.

Definition wrapper_code (w : wrapper)
    : operation -> value -> list value -> M value :=
  match w with
  | ExecWrapper => exec
  | PrepareWrapper => prepare
  | StatementExecution => statementExecution
  end.

(** ** Collaborators that are parameters of the development *)

(** [pkg] is [package.json], which gives the instrumentation its name and
    version; [native_code] is the database client: what the function with
    a given identity does to the heap when called with a receiver and
    arguments.  The client is synchronous native code: it returns or
    throws, may change any object, and does not call back into the
    tracing API or the patched methods. *)
Class Collaborators := {
  pkg_name : string;
  pkg_version : string;
  native_code :
    nat -> value -> list value -> gmap loc (gmap string value) ->
    completion value * gmap loc (gmap string value)
}.

Section Embedding.
Context `{Collaborators}.

Definition run_native (id : nat) (this : value) (params : list value)
    : M value := fun s =>
  let '(c, h) := native_code id this params (heap s) in
  Res c (set_heap h s) [].

(** What a function object does when called. *)
Fixpoint func_code (f : func) : value -> list value -> M value :=
  match f with
  | Native _ id => run_native id
  | Closure w original =>
      wrapper_code w (Operation (fname original) (func_code original))
  end.

Definition func_operation (f : func) : operation :=
  Operation (fname f) (func_code f).

(** [f.call(this, ...params)] *)
Definition call (f : value) (this : value) (params : list value)
    : M value :=
  match f with
  | VFun g => func_code g this params
  | _ => throw_error "TypeError" "not a function"
  end.

(** [target[name].call(this, ...params)]: a method call whose lookup ends
    at the object [target]. *)
Definition invoke (target : value) (name : string) (this : value)
    (params : list value) : M value :=
  let* f := get_prop target name in
  call f this params.

(** ** The method interceptor *)

Definition write_prop (l : loc) (key : string) (v : value)
    (h : gmap loc (gmap string value)) : gmap loc (gmap string value) :=
  match h !! l with
  | Some o => <[l := <[key := v]> o]> h
  | None => h
  end.

(** Modelled from the spec: [wrap] of section 4.3, which the base class
    provides as [_wrap] and which is not part of the sources.  It replaces
    [target[name]] by [factory(original)] and remembers the original in the
    patch record; wrapping a method that is already in the patch record is
    an error; a target without such a method is left alone. *)
Definition _wrap (target : value) (name : string) (factory : func -> func)
    : M unit := fun s =>
  match target with
  | VObj l =>
      match patches s !! (l, name) with
      | Some _ => throw_error "Error" "method is already wrapped" s
      | None =>
          match read_prop (heap s) target name with
          | VFun original =>
              Res (Normal tt)
                  (set_patches (<[(l, name) := original]> (patches s))
                     (set_heap (write_prop l name (VFun (factory original))
                                  (heap s)) s))
                  []
          | _ => Res (Normal tt) s []
          end
      end
  | _ => Res (Normal tt) s []
  end.

(** Modelled from the spec: [unwrap] of section 4.3 ([_unwrap]) restores
    the remembered original if there is one and does nothing otherwise. *)
Definition _unwrap (target : value) (name : string) : M unit := fun s =>
  match target with
  | VObj l =>
      match patches s !! (l, name) with
      | Some original =>
          Res (Normal tt)
              (set_patches (delete (l, name) (patches s))
                 (set_heap (write_prop l name (VFun original) (heap s)) s))
              []
      | None => Res (Normal tt) s []
      end
  | _ => Res (Normal tt) s []
  end.

(** Modelled from the spec: [wrapMany] and [unwrapMany] of section 4.3
    ([_massWrap], [_massUnwrap]) apply the above to each name in turn. *)
Fixpoint _massWrap (target : value) (names : list string)
    (factory : func -> func) : M unit :=
  match names with
  | [] => ret tt
  | name :: rest => _wrap target name factory >> _massWrap target rest factory
  end.

Fixpoint _massUnwrap (target : value) (names : list string) : M unit :=
  match names with
  | [] => ret tt
  | name :: rest => _unwrap target name >> _massUnwrap target rest
  end.

(** ** [init] (lines 23-81): the patch and unpatch callbacks *)

Definition patch (moduleExports : value) : M value :=
  let* DatabaseSync := get_prop moduleExports "DatabaseSync" in
  let* StatementSync := get_prop moduleExports "StatementSync" in
  let* proto := get_prop DatabaseSync "prototype" in
  _wrap proto "exec" (Closure ExecWrapper) >>
  let* proto := get_prop DatabaseSync "prototype" in
  _wrap proto "prepare" (Closure PrepareWrapper) >>
  let* proto := get_prop StatementSync "prototype" in
  _massWrap proto STMT_METHODS (Closure StatementExecution) >>
  ret moduleExports.

Definition unpatch (moduleExports : value) : M value :=
  let* DatabaseSync := get_prop moduleExports "DatabaseSync" in
  let* StatementSync := get_prop moduleExports "StatementSync" in
  let* proto := get_prop DatabaseSync "prototype" in
  _unwrap proto "exec" >>
  let* proto := get_prop DatabaseSync "prototype" in
  _unwrap proto "prepare" >>
  let* proto := get_prop StatementSync "prototype" in
  _massUnwrap proto STMT_METHODS >>
  ret VUndefined.

(** The module definition [init] returns. *)
Record InstrumentationNodeModuleDefinition := {
  module_name : string;
  supportedVersions : list string;
  module_patch : value -> M value;
  module_unpatch : value -> M value
}.

Definition init : list InstrumentationNodeModuleDefinition :=
  [ {| module_name := "node:sqlite";
       supportedVersions := [">=22.5.0"];
       module_patch := patch;
       module_unpatch := unpatch |} ].

(** ** The instrumentation object *)

(** Modelled from the spec: the constructor of the base class (sections 3
    and 4.4), not part of the sources.  A new instrumentation is disabled,
    has seen no module, and its tracer is the one of its own scope. *)
Definition InstrumentationBase (name version : string) (config : value)
    : instrumentation :=
  {| instrumentationName := name;
     instrumentationVersion := version;
     _config := config;
     _tracer := Tracer None name version;
     _enabled := false;
     _moduleExports := None |}.

(** [constructor(config) { super(pkg.name, pkg.version, config); }] *)
Definition SqliteInstrumentation (config : value) : instrumentation :=
  InstrumentationBase pkg_name pkg_version config.

(** Field updates of the instrumentation object. *)
Definition with_tracer (t : tracer) (i : instrumentation) : instrumentation :=
  Instrumentation (instrumentationName i) (instrumentationVersion i)
    (_config i) t (_enabled i) (_moduleExports i).
Definition with_enabled (b : bool) (i : instrumentation) : instrumentation :=
  Instrumentation (instrumentationName i) (instrumentationVersion i)
    (_config i) (_tracer i) b (_moduleExports i).
Definition with_moduleExports (m : option value) (i : instrumentation)
    : instrumentation :=
  Instrumentation (instrumentationName i) (instrumentationVersion i)
    (_config i) (_tracer i) (_enabled i) m.

Definition update_instr (f : instrumentation -> instrumentation) : M unit :=
  fun s => Res (Normal tt) (set_instr (f (instr s)) s) [].

(** Modelled from the spec: the tracer-provider setter (section 3); the
    tracer is replaced by the provider's tracer for the same scope. *)
Definition setTracerProvider (provider : nat) : M unit := fun s =>
  update_instr
    (with_tracer (Tracer (Some provider) (instrumentationName (instr s))
                    (instrumentationVersion (instr s)))) s.

(** Modelled from the spec: the base class runs a callback of every module
    definition that [init] returned on the exports of the loaded module. *)
Definition run_hooks (hook : InstrumentationNodeModuleDefinition ->
                            value -> M value)
    (moduleExports : value) : M unit :=
  foldr (fun d k => hook d moduleExports >> k) (ret tt) init.

(** Modelled from the spec: [enable()] of section 4.4.  Disabled to
    enabled installs the interception on the module if it has been loaded;
    when already enabled nothing is done. *)
Definition enable : M unit := fun s =>
  if _enabled (instr s) then Res (Normal tt) s []
  else
    (update_instr (with_enabled true) >>
     match _moduleExports (instr s) with
     | Some m => run_hooks module_patch m
     | None => ret tt
     end) s.

(** Modelled from the spec: [disable()] of section 4.4.  Enabled to
    disabled reverses the wraps; when already disabled nothing is done. *)
Definition disable : M unit := fun s =>
  if _enabled (instr s) then
    (update_instr (with_enabled false) >>
     match _moduleExports (instr s) with
     | Some m => run_hooks module_unpatch m
     | None => ret tt
     end) s
  else Res (Normal tt) s [].

(** Modelled from the spec: the module-load hook of section 4.4.  The
    first load of the target module records its exports and patches them if
    the instrumentation is enabled; a later load does not patch again. *)
Definition onRequire (moduleExports : value) : M value := fun s =>
  match _moduleExports (instr s) with
  | Some _ => Res (Normal moduleExports) s []
  | None =>
      (update_instr (with_moduleExports (Some moduleExports)) >>
       if _enabled (instr s)
       then run_hooks module_patch moduleExports >> ret moduleExports
       else ret moduleExports) s
  end.

End Embedding.

(** * Vocabulary of the statements *)

(** The status [genericWrap] reports for a completed operation. *)
Definition status_of (r : result value) : SpanStatus :=
  match outcome r with
  | Normal _ => {| code := OK; message := None |}
  | Throw err =>
      {| code := ERROR;
         message := Some (if nullish err then VUndefined
                          else read_prop (heap (final r)) err "message") |}
  end.


(** Whether a closure can build the argument of [startSpan] for a
    receiver: only [statementExecution] reads from [this]. *)
Definition receiver_ok (w : wrapper) (this : value) : bool :=
  match w with
  | StatementExecution => negb (nullish this)
  | _ => true
  end.

(** The attributes each category of operation is specified to carry. *)
Definition span_attributes (w : wrapper) (this : value)
    (params : list value) (h : gmap loc (gmap string value))
    : gmap string value :=
  match w with
  | ExecWrapper => {[ ATTR_DB_SYSTEM := VStr DB_SYSTEM_VALUE_SQLITE ]}
  | PrepareWrapper =>
      {[ ATTR_DB_SYSTEM := VStr DB_SYSTEM_VALUE_SQLITE;
         ATTR_DB_QUERY_TEXT := default VUndefined (head params) ]}
  | StatementExecution =>
      {[ ATTR_DB_SYSTEM := VStr DB_SYSTEM_VALUE_SQLITE;
         ATTR_DB_QUERY_TEXT := read_prop h this "sourceSQL" ]}
  end.

(** Two results agree for the caller: same completion, same heap. *)
Definition agree (r r' : result value) : Prop :=
  outcome r = outcome r' /\ heap (final r) = heap (final r').

(** Whether a thrown value has a [message] property. *)
Definition has_message (h : gmap loc (gmap string value)) (err : value)
    : bool :=
  match err with
  | VObj l => bool_decide (is_Some (h !! l ≫= (.!! "message")))
  | _ => false
  end.

(** Counting the calls recorded in a trace. *)
Definition is_end (sp : span) (e : event) : bool :=
  match e with EvEnd sp' => bool_decide (sp' = sp) | _ => false end.
Definition is_setStatus (sp : span) (e : event) : bool :=
  match e with EvSetStatus sp' _ => bool_decide (sp' = sp) | _ => false end.
Definition is_apply (e : event) : bool :=
  match e with EvApply _ _ _ => true | _ => false end.
Definition is_startSpan (e : event) : bool :=
  match e with EvStartSpan _ _ _ _ => true | _ => false end.

Definition is_start (sp : span) (e : event) : bool :=
  match e with EvStartSpan sp' _ _ _ => bool_decide (sp' = sp) | _ => false end.

Definition count (p : event -> bool) (l : list event) : nat :=
  length (List.filter p l).

(** The span an event is about. *)
Definition event_span (e : event) : option span :=
  match e with
  | EvStartSpan sp _ _ _ | EvSetStatus sp _ | EvEnd sp => Some sp
  | EvApply _ _ _ => None
  end.

(** Every span of the trace has its number in [[lo, hi)]. *)
Definition spans_within (lo hi : nat) (l : list event) : Prop :=
  Forall (fun e => forall sp, event_span e = Some sp -> lo <= sp < hi) l.

(** ** The interceptor as a state transformer *)

(** The entry of the patch record for [target[name]]. *)
Definition patch_record (s : state) (target : value) (name : string)
    : option func :=
  match target with
  | VObj l => patches s !! (l, name)
  | _ => None
  end.

(** The state a successful [_wrap] leaves. *)
Definition wrap_state (target : value) (name : string)
    (factory : func -> func) (s : state) : state :=
  match target with
  | VObj l =>
      match read_prop (heap s) target name with
      | VFun original =>
          set_patches (<[(l, name) := original]> (patches s))
            (set_heap (write_prop l name (VFun (factory original)) (heap s))
                      s)
      | _ => s
      end
  | _ => s
  end.

(** The state [_unwrap] leaves. *)
Definition unwrap_state (target : value) (name : string) (s : state)
    : state :=
  match target with
  | VObj l =>
      match patches s !! (l, name) with
      | Some original =>
          set_patches (delete (l, name) (patches s))
            (set_heap (write_prop l name (VFun original) (heap s)) s)
      | None => s
      end
  | _ => s
  end.

(** The members the patch callback wraps, in its order, for the two
    prototypes [pD = DatabaseSync.prototype], [pS = StatementSync.prototype]. *)
Definition patch_list (pD pS : value) : list (value * string * wrapper) :=
  [ (pD, "exec", ExecWrapper);
    (pD, "prepare", PrepareWrapper);
    (pS, "all", StatementExecution);
    (pS, "get", StatementExecution);
    (pS, "run", StatementExecution) ].

Definition wrap_all (ks : list (value * string * wrapper)) (s : state)
    : state :=
  foldl (fun s '(t, n, w) => wrap_state t n (Closure w) s) s ks.

Definition unwrap_all (ks : list (value * string * wrapper)) (s : state)
    : state :=
  foldl (fun s '(t, n, _) => unwrap_state t n s) s ks.

(** The two prototypes the callbacks reach from the module exports, when
    the reads succeed. *)
Definition module_targets (h : gmap loc (gmap string value)) (m : value)
    : option (value * value) :=
  if nullish m then None
  else
    let d := read_prop h m "DatabaseSync" in
    let st := read_prop h m "StatementSync" in
    if nullish d || nullish st then None
    else Some (read_prop h d "prototype", read_prop h st "prototype").

(** [target[name]] is one of the five patched members. *)
Definition patched_member (pD pS : value) (target : value) (name : string)
    : Prop :=
  (target = pD /\ (name = "exec" \/ name = "prepare"))
  \/ (target = pS /\ (name = "all" \/ name = "get" \/ name = "run")).

(** None of the listed members is in the patch record. *)
Definition records_free (s : state) (ks : list (value * string * wrapper))
    : bool :=
  forallb (fun '(t, n, _) => bool_decide (patch_record s t n = None)) ks.

(** ** The life of an instrumentation *)

(** What can happen to an instrumentation: it is enabled or disabled, the
    target module is loaded, a tracer provider is set. *)
Inductive action :=
  | Enable
  | Disable
  | Load
  | SetTracerProvider (provider : nat).

Section Lifecycle.
Context `{Collaborators}.

Definition perform (m : value) (a : action) : M unit :=
  match a with
  | Enable => enable
  | Disable => disable
  | Load => onRequire m >> ret tt
  | SetTracerProvider provider => setTracerProvider provider
  end.

(** The states an instrumentation for the module [m] goes through from
    the state [s0]. *)
Inductive reachable (m : value) (s0 : state) : state -> Prop :=
  | reachable_init : reachable m s0 s0
  | reachable_step s a :
      reachable m s0 s -> reachable m s0 (final (perform m a s)).

(** The instrumentation carries the name and version of the package, and
    so does its tracer. *)
Definition scoped (i : instrumentation) : Prop :=
  instrumentationName i = pkg_name
  /\ instrumentationVersion i = pkg_version
  /\ scope_name (_tracer i) = pkg_name
  /\ scope_version (_tracer i) = pkg_version.

End Lifecycle.

(** The module is patched exactly when the instrumentation is enabled and
    has seen the module. *)
Definition installed (i : instrumentation) : bool :=
  _enabled i && bool_decide (is_Some (_moduleExports i)).

(** The state with instrumentation object [i] over the unpatched state
    [s0]: patched when [i] is installed, as [s0] otherwise. *)
Definition state_of (s0 : state) (pD pS : value) (i : instrumentation)
    : state :=
  set_instr i (if installed i then wrap_all (patch_list pD pS) s0 else s0).

(** The five members are functions of the database client, each named as
    the property that holds it. *)
Definition client_methods (h : gmap loc (gmap string value)) (pD pS : value)
    : bool :=
  forallb (fun '(t, n, _) =>
             match read_prop h t n with
             | VFun (Native fn _) => bool_decide (fn = n)
             | _ => false
             end)
          (patch_list pD pS).

(** A span was started with this name, kind and instrumentation scope. *)
Definition span_started_as (name : string) (k : SpanKind)
    (scope version : string) (e : event) : Prop :=
  match e with
  | EvStartSpan _ tr name' opts =>
      name' = name /\ kind opts = k
      /\ scope_name tr = scope /\ scope_version tr = version
  | _ => True
  end.

(** The invariant of the state machine: the state is the unpatched state
    [s0], patched exactly when the instrumentation is installed, under an
    instrumentation object that has seen no module other than [m] and
    keeps the scope of the package. *)
Definition invariant `{Collaborators} (m : value) (s0 : state)
    (pD pS : value) (s : state) : Prop :=
  exists i,
    s = state_of s0 pD pS i
    /\ (_moduleExports i = None \/ _moduleExports i = Some m)
    /\ scoped i.

(** A computation that leaves the instrumentation object alone. *)
Definition keeps_instr {A} (m : M A) : Prop :=
  forall s, instr (final (m s)) = instr s.

(** * A sample client

    A small instance of the collaborators, used to run the statements on
    concrete calls: [exec] and [prepare] reject the text "invalid-sql" with
    an error object, [prepare] returns a new statement object holding its
    source text, the statement methods return a number, and one function
    throws [null]. *)

Definition sample_throw (name msg : string)
    (h : gmap loc (gmap string value))
    : completion value * gmap loc (gmap string value) :=
  let '(l, h') := new_error name msg h in (Throw (VObj l), h').

Definition sample_native (id : nat) (this : value) (params : list value)
    (h : gmap loc (gmap string value))
    : completion value * gmap loc (gmap string value) :=
  match id, params with
  | 0%nat, VStr sql :: _ =>
      if decide (sql = "invalid-sql")
      then sample_throw "Error" "syntax error" h
      else (Normal VUndefined, h)
  | 1%nat, VStr sql :: _ =>
      if decide (sql = "invalid-sql")
      then sample_throw "Error" "syntax error" h
      else let l := fresh (dom h) in
           (Normal (VObj l), <[l := {[ "sourceSQL" := VStr sql ]}]> h)
  | 0%nat, _ | 1%nat, _ =>
      sample_throw "TypeError" "The sql argument must be a string." h
  | 5%nat, _ => (Throw VNull, h)
  | _, _ => (Normal (VNum 1), h)
  end.

Definition sample_client : Collaborators :=
  {| pkg_name := "opentelemetry-instrumentation-sqlite";
     pkg_version := "1.0.0";
     native_code := sample_native |}.

(** The module exports at 1, the two classes at 2 and 3, their prototypes
    at 4 and 5, a connection at 6 and a statement at 7. *)
Definition sample_heap : gmap loc (gmap string value) :=
  {[ 1%positive := {[ "DatabaseSync" := VObj 2; "StatementSync" := VObj 3;
                      "constants" := VObj 8 ]};
     2%positive := {[ "prototype" := VObj 4 ]};
     3%positive := {[ "prototype" := VObj 5 ]};
     4%positive := {[ "exec" := VFun (Native "exec" 0);
                      "prepare" := VFun (Native "prepare" 1);
                      "close" := VFun (Native "close" 6) ]};
     5%positive := {[ "all" := VFun (Native "all" 2);
                      "get" := VFun (Native "get" 3);
                      "run" := VFun (Native "run" 4) ]};
     6%positive := ∅;
     7%positive := {[ "sourceSQL" := VStr "SELECT 1" ]};
     8%positive := ∅ ]}.

Definition sample_state : state :=
  State sample_heap ∅ (@SqliteInstrumentation sample_client VUndefined) 0.

(** The sample state after the module has been loaded and the
    instrumentation enabled, and after it has been disabled again. *)
Definition sample_enabled : state :=
  final (perform (VObj 1) Enable
           (final (perform (VObj 1) Load sample_state))).

Definition sample_disabled : state :=
  final (perform (VObj 1) Disable sample_enabled).

(** * Further vocabulary: nested closures, silent computations, the
    assertion of the test suite *)

(** The function of the client at the centre of a function object, and
    the number of closures around it. *)
Fixpoint core (f : func) : func :=
  match f with
  | Native _ _ => f
  | Closure _ original => core original
  end.

Fixpoint depth (f : func) : nat :=
  match f with
  | Native _ _ => 0
  | Closure _ original => S (depth original)
  end.

(** Every closure of the function object can build the argument of its
    [startSpan] for the receiver. *)
Fixpoint readable (f : func) (this : value) : bool :=
  match f with
  | Native _ _ => true
  | Closure w original => receiver_ok w this && readable original this
  end.

(** The trace of a call through nested closures: each closure starts its
    span, numbered from [n] outwards-in, applies the function it wraps to
    the same receiver and arguments, and closes with the status [st]. *)
Fixpoint nested_trace (f : func) (this : value) (params : list value)
    (tr : tracer) (h : gmap loc (gmap string value)) (n : nat)
    (st : SpanStatus) : list event :=
  match f with
  | Native _ _ => []
  | Closure w original =>
      EvStartSpan n tr (fname original)
        {| kind := CLIENT; attributes := span_attributes w this params h |}
        :: EvApply (fname original) this params
        :: nested_trace original this params tr h (S n) st
        ++ [EvSetStatus n st; EvEnd n]
  end.

(** A computation that calls neither the tracing API nor a function, and
    hands out no span. *)
Definition silent {A} (m : M A) : Prop :=
  forall s, trace (m s) = [] /\ next_span (final (m s)) = next_span s.

(** ** More of the sample client *)

(** Exports at 9 that have [DatabaseSync] but no [StatementSync]. *)
Definition sample_partial_state : state :=
  State (<[9%positive := {[ "DatabaseSync" := VObj 2 ]}]> sample_heap) ∅
        (@SqliteInstrumentation sample_client VUndefined) 0.

(** [all] of the client inside a statement closure inside an [exec]
    closure. *)
Definition sample_nested : func :=
  Closure ExecWrapper (Closure StatementExecution (Native "all" 2)).

(** * The instrumentation in use *)

(** Besides being toggled, an instrumented program calls methods: a use is
    an action on the instrumentation or a call [target[name].call(this,
    ...params)] of any method of any object. *)
Inductive use :=
  | Toggle (a : action)
  | Call (target : value) (name : string) (this : value)
         (params : list value).

Section Use.
Context `{Collaborators}.

Definition perform_use (m : value) (u : use) : M unit :=
  match u with
  | Toggle a => perform m a
  | Call target name this params =>
      invoke target name this params >> ret tt
  end.

(** The states a program goes through from [s0] while it toggles the
    instrumentation for the module [m] and calls methods; a call that
    throws leaves the state in which it threw. *)
Inductive in_use (m : value) (s0 : state) : state -> Prop :=
  | in_use_init : in_use m s0 s0
  | in_use_step s u :
      in_use m s0 s -> in_use m s0 (final (perform_use m u s)).

(** The client does not redefine its own module: whatever a function of
    the client does to the heap, the exports [m] lead to the same two
    prototypes and the five members read as before. *)
Definition client_keeps (m : value) : Prop :=
  forall id this params h pD pS,
    module_targets h m = Some (pD, pS) ->
    module_targets (snd (native_code id this params h)) m = Some (pD, pS)
    /\ forall t n w,
         (t, n, w) ∈ patch_list pD pS ->
         read_prop (snd (native_code id this params h)) t n = read_prop h t n.

(** What a call can do to the heap: run a function of the client, or
    create an error object. *)
Definition heap_after_call (h h' : gmap loc (gmap string value)) : Prop :=
  (exists id this params, h' = snd (native_code id this params h))
  \/ (exists name msg, h' = snd (new_error name msg h)).

End Use.

(** The five members in a state in use, relative to the unpatched state
    [s0]: each is the function of the client it was in [s0], with no
    entry in the patch record, or ([wrapped = true]) the closure of its
    category around that function, with the function remembered. *)
Definition members (m : value) (s0 : state) (pD pS : value)
    (wrapped : bool) (s : state) : Prop :=
  module_targets (heap s) m = Some (pD, pS)
  /\ forall t n w,
       (t, n, w) ∈ patch_list pD pS ->
       exists id,
         read_prop (heap s0) t n = VFun (Native n id)
         /\ if wrapped
            then read_prop (heap s) t n = VFun (Closure w (Native n id))
                 /\ patch_record s t n = Some (Native n id)
            else read_prop (heap s) t n = VFun (Native n id)
                 /\ patch_record s t n = None.

(** The sample client after some use: the module is loaded, the
    instrumentation enabled, a statement prepared, the instrumentation
    disabled. *)
Definition sample_used : state :=
  final (@perform_use sample_client (VObj 1) (Toggle Disable)
           (final (@perform_use sample_client (VObj 1)
                     (Call (VObj 4) "prepare" (VObj 6) [VStr "SELECT 2"])
                     sample_enabled))).

(** The sample client with a tracer provider: the module is loaded, the
    provider set and the instrumentation enabled; and the same after the
    instrumentation has been disabled again. *)
Definition sample_traced : state :=
  final (@perform_use sample_client (VObj 1) (Toggle Enable)
           (final (@perform_use sample_client (VObj 1)
                     (Toggle (SetTracerProvider 1))
                     (final (@perform_use sample_client (VObj 1)
                               (Toggle Load) sample_state))))).

Definition sample_traced_off : state :=
  final (@perform_use sample_client (VObj 1) (Toggle Disable) sample_traced).

(** The invariant of the instrumentation in use: the members are wrapped
    exactly when the instrumentation is installed, and the instrumentation
    has seen no module other than [m]. *)
Definition serving (m : value) (s0 : state) (pD pS : value) (s : state)
    : Prop :=
  members m s0 pD pS (installed (instr s)) s
  /\ (_moduleExports (instr s) = None \/ _moduleExports (instr s) = Some m).
(** * Properties *)

Section Properties.
Context `{Collaborators}.

(** ** The span lifecycle helper *)

Lemma get_prop_opt_total err key s :
  get_prop_opt err key s =
  Res (Normal (if nullish err then VUndefined
               else read_prop (heap s) err key)) s [].
Proof.
  unfold get_prop_opt, get_prop. destruct (nullish err); reflexivity.
Qed.

Lemma genericWrap_run original self params sp s :
  let r := op_code original self params s in
  genericWrap original self params sp s =
  Res (outcome r) (final r)
      (EvApply (op_name original) self params
         :: trace r ++ [EvSetStatus sp (status_of r); EvEnd sp]).
Proof.
  cbv [genericWrap try_catch_finally op_apply bind emit span_setStatus
       span_end ret throw status_of].
  destruct (op_code original self params s) as [[v|err] s1 l1]; cbn.
  - rewrite <- app_assoc. reflexivity.
  - rewrite get_prop_opt_total. cbn. rewrite <- app_assoc. reflexivity.
Qed.


(** ** The closures *)

Arguments genericWrap : simpl never.

Lemma get_prop_ok v key s :
  nullish v = false ->
  get_prop v key s = Res (Normal (read_prop (heap s) v key)) s [].
Proof. intros Hv. unfold get_prop. rewrite Hv. reflexivity. Qed.

Lemma get_prop_nullish v key s :
  nullish v = true ->
  get_prop v key s = throw_error "TypeError" (cannot_read v key) s.
Proof. intros Hv. unfold get_prop. rewrite Hv. reflexivity. Qed.

(** A closure whose receiver is readable starts one span and hands over
    to [genericWrap]. *)
Lemma wrapper_run w original this params s :
  receiver_ok w this = true ->
  let r := genericWrap original this params (next_span s)
             (set_next_span (S (next_span s)) s) in
  wrapper_code w original this params s =
  Res (outcome r) (final r)
      (EvStartSpan (next_span s) (_tracer (instr s)) (op_name original)
         {| kind := CLIENT;
            attributes := span_attributes w this params (heap s) |}
         :: trace r).
Proof.
  intros Hok r. subst r. destruct w; cbn in Hok |- *.
  - cbv [exec bind instr_tracer startSpan]. cbn.
    destruct (genericWrap _ _ _ _ _); reflexivity.
  - cbv [prepare bind instr_tracer startSpan]. cbn.
    destruct (genericWrap _ _ _ _ _) as [c s1 l1]; cbn.
    do 2 f_equal. f_equal. f_equal.
    destruct params; reflexivity.
  - apply negb_true_iff in Hok.
    cbv [statementExecution bind instr_tracer]. rewrite (get_prop_ok _ _ _ Hok).
    cbv [startSpan]. cbn.
    destruct (genericWrap _ _ _ _ _); reflexivity.
Qed.

(** [statementExecution] on [undefined] or [null] fails before any span
    is started. *)
Lemma statementExecution_nullish original this params s :
  nullish this = true ->
  statementExecution original this params s =
  throw_error "TypeError" (cannot_read this "sourceSQL") s.
Proof.
  intros Hn. cbv [statementExecution bind instr_tracer].
  rewrite (get_prop_nullish _ _ _ Hn). reflexivity.
Qed.

(** ** Calls see the heap only *)

Lemma throw_error_agree name msg s s' :
  heap s = heap s' ->
  agree (throw_error name msg s) (throw_error name msg s').
Proof.
  intros Hh. unfold agree, throw_error, new_error. rewrite Hh. cbn. done.
Qed.

(** What a function object does depends on the heap alone: neither the
    span counter nor the instrumentation object changes its completion or
    the heap it leaves. *)
Lemma func_code_heap f : forall this params s s',
  heap s = heap s' ->
  agree (func_code f this params s) (func_code f this params s').
Proof.
  induction f as [name id | w f IH]; intros this params s s' Hh.
  - cbn. unfold run_native, agree. rewrite Hh.
    destruct (native_code id this params (heap s')); cbn. done.
  - cbn [func_code]. destruct (receiver_ok w this) eqn:Hok.
    + rewrite !wrapper_run by done. cbn zeta.
      rewrite !genericWrap_run. cbn zeta. unfold agree. cbn.
      apply IH. cbn. done.
    + destruct w; try discriminate. cbn in Hok.
      apply negb_false_iff in Hok. cbn [wrapper_code].
      rewrite !statementExecution_nullish by done.
      by apply throw_error_agree.
Qed.

(** A closure whose receiver is readable completes as the function it
    wraps, and leaves the heap that function leaves. *)
Lemma closure_transparent w f this params s :
  receiver_ok w this = true ->
  agree (func_code (Closure w f) this params s) (func_code f this params s).
Proof.
  intros Hok. cbn [func_code]. rewrite wrapper_run by done. cbn zeta.
  rewrite genericWrap_run. cbn zeta. unfold agree. cbn.
  apply func_code_heap. reflexivity.
Qed.

(** The other receivers: the closure throws a [TypeError] of its own. *)
Lemma closure_nullish_receiver w f this params s :
  receiver_ok w this = false ->
  func_code (Closure w f) this params s =
  throw_error "TypeError" (cannot_read this "sourceSQL") s.
Proof.
  intros Hok. destruct w; try discriminate. cbn in Hok.
  apply negb_false_iff in Hok. cbn [func_code wrapper_code].
  by apply statementExecution_nullish.
Qed.

Lemma run_native_trace id this params s :
  trace (run_native id this params s) = [].
Proof. unfold run_native. destruct (native_code _ _ _ _). reflexivity. Qed.

Lemma closure_nullish_trace w f this params s :
  receiver_ok w this = false ->
  trace (func_code (Closure w f) this params s) = [].
Proof. intros Hok. rewrite closure_nullish_receiver by done. reflexivity. Qed.

(** ** Spans of nested closures *)

Lemma count_app p l1 l2 : count p (l1 ++ l2) = (count p l1 + count p l2)%nat.
Proof. unfold count. rewrite List.filter_app, length_app. reflexivity. Qed.

Lemma count_cons p e l :
  count p (e :: l) = ((if p e then 1 else 0) + count p l)%nat.
Proof. unfold count. cbn. destruct (p e); reflexivity. Qed.

(** The spans of a call are numbered from the counter on, below the
    counter the call leaves. *)
Lemma func_code_spans f : forall this params s,
  let r := func_code f this params s in
  next_span s <= next_span (final r)
  /\ spans_within (next_span s) (next_span (final r)) (trace r).
Proof.
  induction f as [name id | w f IH]; intros this params s r; subst r.
  - cbn. unfold run_native. destruct (native_code _ _ _ _). cbn.
    split; [lia | constructor].
  - destruct (receiver_ok w this) eqn:Hok.
    + cbn [func_code]. rewrite wrapper_run by done. cbn zeta.
      rewrite genericWrap_run. cbn zeta. cbn [outcome final trace op_code].
      specialize (IH this params (set_next_span (S (next_span s)) s)).
      cbn zeta in IH. cbn [next_span set_next_span] in IH.
      destruct IH as [Hle Hin]. split; [lia|].
      unfold spans_within in *.
      repeat (apply Forall_cons; split);
        [ intros sp [= <-]; lia
        | intros sp [=]
        | apply Forall_app; split;
          [ eapply Forall_impl; [exact Hin|];
            intros e He sp Hsp; specialize (He sp Hsp); lia
          | repeat (apply Forall_cons; split);
            [ intros sp [= <-]; lia | intros sp [= <-]; lia
            | apply Forall_nil_2 ] ] ].
    + rewrite closure_nullish_receiver by done. cbn.
      split; [lia | constructor].
Qed.

Lemma spans_within_count lo hi l sp (p : span -> event -> bool) :
  spans_within lo hi l ->
  sp < lo ->
  (forall e, p sp e = true -> event_span e = Some sp) ->
  count (p sp) l = 0%nat.
Proof.
  intros Hin Hlt Hp. induction Hin as [|e l He Hl IH]; [reflexivity|].
  rewrite count_cons, IH. destruct (p sp e) eqn:Hpe; [|reflexivity].
  specialize (He sp (Hp e Hpe)). lia.
Qed.

Lemma is_start_span sp e : is_start sp e = true -> event_span e = Some sp.
Proof. destruct e; cbn; try discriminate. by intros ->%bool_decide_eq_true. Qed.

Lemma is_setStatus_span sp e :
  is_setStatus sp e = true -> event_span e = Some sp.
Proof. destruct e; cbn; try discriminate. by intros ->%bool_decide_eq_true. Qed.

Lemma is_end_span sp e : is_end sp e = true -> event_span e = Some sp.
Proof. destruct e; cbn; try discriminate. by intros ->%bool_decide_eq_true. Qed.

(** However closures nest, every span is started at most once and has
    its status set and is ended exactly as often as it is started; and
    there are as many applications as spans. *)
Lemma func_code_span_counts f : forall this params s sp,
  let l := trace (func_code f this params s) in
  count (is_start sp) l <= 1
  /\ count (is_setStatus sp) l = count (is_start sp) l
  /\ count (is_end sp) l = count (is_start sp) l
  /\ count is_apply l = count is_startSpan l.
Proof.
  induction f as [name id | w f IH]; intros this params s sp l; subst l.
  - cbn [func_code]. rewrite run_native_trace. cbn. lia.
  - destruct (receiver_ok w this) eqn:Hok.
    + cbn [func_code]. rewrite wrapper_run by done. cbn zeta.
      rewrite genericWrap_run. cbn zeta. cbn [outcome final trace op_code].
      set (s' := set_next_span (S (next_span s)) s).
      destruct (func_code_spans f this params s') as [_ Hin].
      cbn zeta in Hin. cbn [next_span set_next_span s'] in Hin.
      specialize (IH this params s' sp). cbn zeta in IH.
      destruct IH as (I1 & I2 & I3 & I4).
      rewrite !count_cons, !count_app, !count_cons. cbn [is_start is_setStatus
        is_end is_apply is_startSpan count List.filter length].
      destruct (decide (next_span s = sp)) as [<-|Hne].
      * rewrite !bool_decide_eq_true_2 by done.
        rewrite (spans_within_count _ _ _ _ is_start Hin) in *
          by (lia || apply is_start_span).
        rewrite (spans_within_count _ _ _ _ is_setStatus Hin)
          by (lia || apply is_setStatus_span).
        rewrite (spans_within_count _ _ _ _ is_end Hin)
          by (lia || apply is_end_span).
        lia.
      * rewrite !bool_decide_eq_false_2 by done. lia.
    + rewrite closure_nullish_trace by done. cbn. lia.
Qed.

(** ** Claims about [genericWrap] *)

(** C1. [genericWrap] applies the operation to the given receiver and
    arguments, and when the operation returns it sets the status OK, ends
    the span and returns the very result, leaving the state the operation
    left.  Hence a value returned by a wrapped method is the value the
    original method returns on the same input, and every value the
    original returns is returned by the wrapped method when the closure
    can read its receiver ([statementExecution] reads [this.sourceSQL]). *)
Theorem genericWrap_returns_result :
  (forall original self params sp s v s1 l1,
      op_code original self params s = Res (Normal v) s1 l1 ->
      genericWrap original self params sp s =
      Res (Normal v) s1
          (EvApply (op_name original) self params
             :: l1 ++ [EvSetStatus sp {| code := OK; message := None |};
                       EvEnd sp]))
  /\ (forall w f this params s v,
        outcome (func_code (Closure w f) this params s) = Normal v ->
        outcome (func_code f this params s) = Normal v)
  /\ (forall w f this params s v,
        receiver_ok w this = true ->
        outcome (func_code f this params s) = Normal v ->
        outcome (func_code (Closure w f) this params s) = Normal v).
Proof.
  split; [|split].
  - intros original self params sp s v s1 l1 Hop.
    rewrite genericWrap_run. cbn zeta. unfold status_of. rewrite Hop.
    reflexivity.
  - intros w f this params s v Hv.
    destruct (receiver_ok w this) eqn:Hok.
    + destruct (closure_transparent w f this params s Hok) as [Ho _].
      congruence.
    + rewrite closure_nullish_receiver in Hv by done. discriminate.
  - intros w f this params s v Hok Hv.
    destruct (closure_transparent w f this params s Hok) as [Ho _].
    congruence.
Qed.


(** C3. On every exit path the trace of [genericWrap] is: one application
    of the operation, whatever the operation itself does, one [setStatus]
    on the span and one [end] of the span, in this order; the completion
    and the final state are those of that single application.  Counted
    over the trace, [genericWrap] adds exactly one application, one
    [setStatus] and one [end] to what the operation records.  Hence in a
    call of a function object, however many closures are nested in it and
    whether they return or throw, every span is started at most once, has
    its status set exactly once and is ended exactly once when it is
    started, and never otherwise; and each span stands for exactly one
    application of a wrapped function. *)
Theorem genericWrap_once :
  (forall original self params sp s,
      let r := op_code original self params s in
      let g := genericWrap original self params sp s in
      (exists st,
          g = Res (outcome r) (final r)
                (EvApply (op_name original) self params
                   :: trace r ++ [EvSetStatus sp st; EvEnd sp]))
      /\ count is_apply (trace g) = S (count is_apply (trace r))
      /\ count (is_setStatus sp) (trace g)
         = S (count (is_setStatus sp) (trace r))
      /\ count (is_end sp) (trace g) = S (count (is_end sp) (trace r)))
  /\ (forall f this params s sp,
        let l := trace (func_code f this params s) in
        count (is_start sp) l <= 1
        /\ count (is_setStatus sp) l = count (is_start sp) l
        /\ count (is_end sp) l = count (is_start sp) l
        /\ count is_apply l = count is_startSpan l).
Proof.
  split; [|intros f this params s sp; apply func_code_span_counts].
  intros original self params sp s r g. subst r g.
  rewrite genericWrap_run. cbn zeta. cbn [trace].
  split; [eauto|].
  change (?e :: ?l ++ ?l') with ([e] ++ l ++ l').
  rewrite !count_app. unfold count. cbn.
  rewrite !bool_decide_eq_true_2 by done. cbn. lia.
Qed.

(** C9. A thrown value without a [message] property ([null], [undefined],
    a primitive, an object lacking the property) does not make the
    status-setting step throw: the status is ERROR with an undefined
    message, the span is ended, and the thrown value itself is thrown
    again. *)
Theorem genericWrap_tolerates_missing_message
    original self params sp s err s1 l1 :
  op_code original self params s = Res (Throw err) s1 l1 ->
  has_message (heap s1) err = false ->
  genericWrap original self params sp s =
  Res (Throw err) s1
      (EvApply (op_name original) self params
         :: l1 ++ [EvSetStatus sp
                     {| code := ERROR; message := Some VUndefined |};
                   EvEnd sp]).
Proof.
  intros Hop Hmsg. rewrite genericWrap_run. cbn zeta. unfold status_of.
  rewrite Hop. cbn. do 4 f_equal.
  destruct err as [| | b | n | str | l | f]; try reflexivity.
  cbn in Hmsg |- *. apply bool_decide_eq_false in Hmsg.
  destruct (heap s1 !! l ≫= (.!! "message")) eqn:E; [|reflexivity].
  exfalso. apply Hmsg. eauto.
Qed.

(** ** Reading and writing properties *)

Lemma state_eq s s' :
  heap s = heap s' -> patches s = patches s' -> instr s = instr s' ->
  next_span s = next_span s' -> s = s'.
Proof. destruct s, s'; cbn; intros; subst; reflexivity. Qed.

Lemma read_write_ne h l k v t k' :
  (VObj l, k) ≠ (t, k') ->
  read_prop (write_prop l k v h) t k' = read_prop h t k'.
Proof.
  intros Hne. destruct t as [| | | | | l' |]; try reflexivity.
  unfold write_prop. destruct (h !! l) as [o|] eqn:Hl; [|reflexivity].
  cbn. destruct (decide (l = l')) as [->|Hll].
  - rewrite lookup_insert_eq, Hl. cbn.
    rewrite lookup_insert_ne by congruence. reflexivity.
  - rewrite lookup_insert_ne by done. reflexivity.
Qed.

Lemma write_prop_comm h l k v l' k' v' :
  (l, k) ≠ (l', k') ->
  write_prop l k v (write_prop l' k' v' h) =
  write_prop l' k' v' (write_prop l k v h).
Proof.
  intros Hne. unfold write_prop.
  destruct (decide (l = l')) as [->|Hll].
  - destruct (h !! l') as [o|] eqn:Hl; rewrite ?Hl; [|reflexivity].
    rewrite !lookup_insert_eq, !insert_insert_eq.
    f_equal. apply insert_insert_ne. congruence.
  - destruct (h !! l') as [o'|] eqn:Hl', (h !! l) as [o|] eqn:Hl;
      rewrite ?Hl, ?Hl', ?lookup_insert_ne, ?Hl, ?Hl' by done;
      try reflexivity.
    apply insert_insert_ne. done.
Qed.

Lemma write_prop_restore h l k v w :
  read_prop h (VObj l) k = VFun w ->
  write_prop l k (VFun w) (write_prop l k v h) = h.
Proof.
  unfold write_prop; cbn. intros Hr.
  destruct (h !! l) as [o|] eqn:Hl; [|discriminate]. cbn in Hr.
  rewrite lookup_insert_eq, !insert_insert_eq.
  destruct (o !! k) as [x|] eqn:Hk; cbn in Hr; [|discriminate]. subst x.
  rewrite (insert_id o) by done. by apply insert_id.
Qed.

(** ** The interceptor *)

Lemma _wrap_run t n F s :
  _wrap t n F s =
  match patch_record s t n with
  | Some _ => throw_error "Error" "method is already wrapped" s
  | None => Res (Normal tt) (wrap_state t n F s) []
  end.
Proof.
  unfold _wrap, patch_record, wrap_state.
  destruct t; try reflexivity.
  destruct (patches s !! (l, n)); [reflexivity|].
  destruct (read_prop (heap s) (VObj l) n); reflexivity.
Qed.

Lemma _unwrap_run t n s :
  _unwrap t n s = Res (Normal tt) (unwrap_state t n s) [].
Proof.
  unfold _unwrap, unwrap_state. destruct t; try reflexivity.
  destruct (patches s !! (l, n)); reflexivity.
Qed.

Lemma wrap_state_read t n F s t' k' :
  (t, n) ≠ (t', k') ->
  read_prop (heap (wrap_state t n F s)) t' k' = read_prop (heap s) t' k'.
Proof.
  intros Hne. unfold wrap_state. destruct t; try reflexivity.
  destruct (read_prop (heap s) (VObj l) n); try reflexivity.
  cbn. by apply read_write_ne.
Qed.

Lemma unwrap_state_read t n s t' k' :
  (t, n) ≠ (t', k') ->
  read_prop (heap (unwrap_state t n s)) t' k' = read_prop (heap s) t' k'.
Proof.
  intros Hne. unfold unwrap_state. destruct t; try reflexivity.
  destruct (patches s !! (l, n)); try reflexivity.
  cbn. by apply read_write_ne.
Qed.

Lemma wrap_state_record t n F s t' k' :
  (t, n) ≠ (t', k') ->
  patch_record (wrap_state t n F s) t' k' = patch_record s t' k'.
Proof.
  intros Hne. unfold wrap_state. destruct t; try reflexivity.
  destruct (read_prop (heap s) (VObj l) n); try reflexivity.
  destruct t'; try reflexivity. cbn.
  apply lookup_insert_ne. congruence.
Qed.

(** Unwrapping right after wrapping gives the state back. *)
Lemma unwrap_wrap_state t n F s :
  patch_record s t n = None ->
  unwrap_state t n (wrap_state t n F s) = s.
Proof.
  intros Hfree. unfold wrap_state. destruct t; try reflexivity.
  cbn in Hfree.
  destruct (read_prop (heap s) (VObj l) n) eqn:Hr;
    try (unfold unwrap_state; rewrite Hfree; reflexivity).
  unfold unwrap_state. cbn. rewrite lookup_insert_eq.
  apply state_eq; cbn; try reflexivity.
  - by apply write_prop_restore.
  - rewrite delete_insert_eq. by apply delete_id.
Qed.

(** Wrapping one member and unwrapping another commute. *)
Lemma unwrap_wrap_comm t n t' n' F s :
  (t, n) ≠ (t', n') ->
  unwrap_state t n (wrap_state t' n' F s) =
  wrap_state t' n' F (unwrap_state t n s).
Proof.
  intros Hne.
  destruct t as [| | | | | l |]; try reflexivity.
  destruct t' as [| | | | | l' |]; try reflexivity.
  assert (Hk : (l, n) ≠ (l', n')) by congruence.
  unfold wrap_state at 2.
  rewrite (unwrap_state_read (VObj l) n s (VObj l') n' Hne).
  unfold wrap_state at 1.
  destruct (read_prop (heap s) (VObj l') n') eqn:Hr; try reflexivity.
  unfold unwrap_state. cbn.
  rewrite lookup_insert_ne by congruence.
  destruct (patches s !! (l, n)) as [orig|] eqn:Hp; [|reflexivity].
  apply state_eq; cbn; try reflexivity.
  - by apply write_prop_comm.
  - by apply delete_insert_ne.
Qed.

(** ** Running the callbacks *)

Lemma result_eta {A} (r : result A) :
  Res (outcome r) (final r) (trace r) = r.
Proof. destruct r; reflexivity. Qed.

Lemma bind_get_prop {B} v k (f : value -> M B) s :
  (let* x := get_prop v k in f x) s =
  if nullish v
  then throw_error "TypeError" (cannot_read v k) s
  else f (read_prop (heap s) v k) s.
Proof.
  unfold bind, get_prop. destruct (nullish v).
  - unfold throw_error. destruct (new_error _ _ _). reflexivity.
  - cbn. apply result_eta.
Qed.

Lemma bind_wrap {B} t n F (k : M B) s :
  (_wrap t n F >> k) s =
  match patch_record s t n with
  | Some _ => throw_error "Error" "method is already wrapped" s
  | None => k (wrap_state t n F s)
  end.
Proof.
  unfold bind. rewrite _wrap_run. destruct (patch_record s t n).
  - unfold throw_error. destruct (new_error _ _ _). reflexivity.
  - cbn. apply result_eta.
Qed.

Lemma bind_unwrap {B} t n (k : M B) s :
  (_unwrap t n >> k) s = k (unwrap_state t n s).
Proof. unfold bind. rewrite _unwrap_run. cbn. apply result_eta. Qed.

Lemma bind_ret_tt {B} (b : B) s : (ret tt >> ret b) s = Res (Normal b) s [].
Proof. reflexivity. Qed.

Lemma bind_assoc {A B C} (m : M A) (f : A -> M B) (g : B -> M C) s :
  (let* y := (let* x := m in f x) in g y) s =
  (let* x := m in let* y := f x in g y) s.
Proof.
  unfold bind. destruct (m s) as [[a|e] s1 l1]; [|reflexivity].
  destruct (f a s1) as [[b|e] s2 l2]; cbn; [|reflexivity].
  rewrite app_assoc. reflexivity.
Qed.

Lemma throw_error_throws {A} name msg s :
  exists e s', @throw_error A name msg s = Res (Throw e) s' [].
Proof. unfold throw_error. destruct (new_error _ _ _). eauto. Qed.

(** The patch callback either wraps the five members and returns the
    exports, or throws: when the exports, a class or the patch record do
    not allow it. *)
Lemma patch_cases m s :
  match module_targets (heap s) m with
  | Some (pD, pS) =>
      if records_free s (patch_list pD pS)
      then patch m s = Res (Normal m) (wrap_all (patch_list pD pS) s) []
      else exists e s', patch m s = Res (Throw e) s' []
  | None => exists e s', patch m s = Res (Throw e) s' []
  end.
Proof.
  unfold module_targets, patch.
  rewrite bind_get_prop.
  destruct (nullish m) eqn:Hm; [apply throw_error_throws|].
  rewrite bind_get_prop, Hm, bind_get_prop.
  set (d := read_prop (heap s) m "DatabaseSync").
  set (st := read_prop (heap s) m "StatementSync").
  destruct (nullish d) eqn:Hd; [apply throw_error_throws|]. cbn [orb].
  set (pD := read_prop (heap s) d "prototype").
  set (pS := read_prop (heap s) st "prototype").
  rewrite bind_wrap.
  destruct (patch_record s pD "exec") eqn:E1.
  { destruct (nullish st); [|cbn; rewrite E1; cbn];
      apply throw_error_throws. }
  rewrite bind_get_prop, Hd.
  rewrite wrap_state_read by congruence. fold pD.
  rewrite bind_wrap, wrap_state_record by congruence.
  destruct (patch_record s pD "prepare") eqn:E2.
  { destruct (nullish st); [|cbn; rewrite E1, E2; cbn];
      apply throw_error_throws. }
  rewrite bind_get_prop.
  destruct (nullish st) eqn:Hst; [apply throw_error_throws|].
  rewrite !wrap_state_read by congruence. fold pS.
  cbn [_massWrap STMT_METHODS records_free patch_list forallb].
  rewrite E1, E2.
  rewrite bind_assoc, bind_wrap, !wrap_state_record by congruence.
  destruct (patch_record s pS "all") eqn:E3.
  { rewrite (bool_decide_eq_false_2 (Some _ = None)) by done.
    rewrite !andb_false_r. cbn. apply throw_error_throws. }
  rewrite bind_assoc, bind_wrap, !wrap_state_record by congruence.
  destruct (patch_record s pS "get") eqn:E4.
  { rewrite (bool_decide_eq_false_2 (Some _ = None)) by done.
    rewrite !andb_false_r. cbn. apply throw_error_throws. }
  rewrite bind_assoc, bind_wrap, !wrap_state_record by congruence.
  destruct (patch_record s pS "run") eqn:E5.
  { rewrite (bool_decide_eq_false_2 (Some _ = None)) by done.
    rewrite !andb_false_r. cbn. apply throw_error_throws. }
  rewrite !bool_decide_eq_true_2 by done. cbn [andb].
  rewrite bind_ret_tt. reflexivity.
Qed.

(** The unpatch callback unwraps the five members, or throws when the
    exports or a class cannot be read. *)
Lemma unpatch_cases m s :
  match module_targets (heap s) m with
  | Some (pD, pS) =>
      unpatch m s =
      Res (Normal VUndefined) (unwrap_all (patch_list pD pS) s) []
  | None => exists e s', unpatch m s = Res (Throw e) s' []
  end.
Proof.
  unfold module_targets, unpatch.
  rewrite bind_get_prop.
  destruct (nullish m) eqn:Hm; [apply throw_error_throws|].
  rewrite bind_get_prop, Hm, bind_get_prop.
  set (d := read_prop (heap s) m "DatabaseSync").
  set (st := read_prop (heap s) m "StatementSync").
  destruct (nullish d) eqn:Hd; [apply throw_error_throws|]. cbn [orb].
  set (pD := read_prop (heap s) d "prototype").
  set (pS := read_prop (heap s) st "prototype").
  rewrite bind_unwrap, bind_get_prop, Hd.
  rewrite unwrap_state_read by congruence. fold pD.
  rewrite bind_unwrap, bind_get_prop.
  destruct (nullish st) eqn:Hst; [apply throw_error_throws|].
  rewrite !unwrap_state_read by congruence. fold pS.
  cbn [_massUnwrap STMT_METHODS].
  rewrite bind_assoc, bind_unwrap, bind_assoc, bind_unwrap,
    bind_assoc, bind_unwrap.
  rewrite bind_ret_tt. reflexivity.
Qed.

Lemma records_free_inv s pD pS :
  records_free s (patch_list pD pS) = true ->
  patch_record s pD "exec" = None /\ patch_record s pD "prepare" = None
  /\ patch_record s pS "all" = None /\ patch_record s pS "get" = None
  /\ patch_record s pS "run" = None.
Proof.
  unfold records_free. cbn. rewrite !andb_true_iff, !bool_decide_eq_true.
  tauto.
Qed.

(** Unwrapping the five members of a freshly patched state undoes the
    patch. *)
Lemma unwrap_all_wrap_all s pD pS :
  records_free s (patch_list pD pS) = true ->
  unwrap_all (patch_list pD pS) (wrap_all (patch_list pD pS) s) = s.
Proof.
  intros (E1 & E2 & E3 & E4 & E5)%records_free_inv.
  unfold unwrap_all, wrap_all. cbn [foldl patch_list].
  do 4 rewrite (unwrap_wrap_comm pD "exec") by congruence.
  rewrite unwrap_wrap_state by done.
  do 3 rewrite (unwrap_wrap_comm pD "prepare") by congruence.
  rewrite unwrap_wrap_state by done.
  do 2 rewrite (unwrap_wrap_comm pS "all") by congruence.
  rewrite unwrap_wrap_state by done.
  rewrite (unwrap_wrap_comm pS "get") by congruence.
  rewrite (unwrap_wrap_state pS "get") by done.
  by apply unwrap_wrap_state.
Qed.

(** The reads of the callbacks are not disturbed by the wraps. *)
Lemma wrap_all_read s pD pS t k :
  ~ patched_member pD pS t k ->
  read_prop (heap (wrap_all (patch_list pD pS) s)) t k = read_prop (heap s) t k.
Proof.
  intros Hnot. unfold wrap_all. cbn [foldl patch_list].
  rewrite !wrap_state_read; [reflexivity|..];
    intros [= ? ?]; subst; apply Hnot; unfold patched_member; tauto.
Qed.

Lemma module_targets_wrap_all s pD pS pD' pS' m :
  module_targets (heap (wrap_all (patch_list pD pS) s)) m = Some (pD', pS') <->
  module_targets (heap s) m = Some (pD', pS').
Proof.
  unfold module_targets.
  rewrite !(wrap_all_read s pD pS) by (unfold patched_member; intros H0;
    decompose [and or] H0; discriminate).
  reflexivity.
Qed.

Lemma patch_normal_inv m s r s1 l :
  patch m s = Res (Normal r) s1 l ->
  exists pD pS,
    module_targets (heap s) m = Some (pD, pS)
    /\ records_free s (patch_list pD pS) = true
    /\ r = m /\ s1 = wrap_all (patch_list pD pS) s /\ l = [].
Proof.
  intros Hp. pose proof (patch_cases m s) as Hc.
  destruct (module_targets (heap s) m) as [[pD pS]|].
  - destruct (records_free s (patch_list pD pS)) eqn:Hfree.
    + rewrite Hc in Hp. injection Hp as <- <- <-.
      exists pD, pS. repeat split; done.
    + destruct Hc as (e & s' & Hc). congruence.
  - destruct Hc as (e & s' & Hc). congruence.
Qed.

Lemma lookup_write_ne h l k v l' k' :
  (l, k) ≠ (l', k') ->
  write_prop l k v h !! l' ≫= (.!! k') = h !! l' ≫= (.!! k').
Proof.
  intros Hne. unfold write_prop.
  destruct (h !! l) as [o|] eqn:Hl; [|reflexivity].
  destruct (decide (l = l')) as [->|Hll].
  - rewrite lookup_insert_eq, Hl. cbn.
    apply lookup_insert_ne. congruence.
  - by rewrite lookup_insert_ne.
Qed.

Lemma lookup_write_is_Some h l k v l' :
  is_Some (write_prop l k v h !! l') <-> is_Some (h !! l').
Proof.
  unfold write_prop. destruct (h !! l) as [o|] eqn:Hl; [|reflexivity].
  destruct (decide (l = l')) as [->|Hll].
  - rewrite lookup_insert_eq, Hl. split; eauto.
  - by rewrite lookup_insert_ne.
Qed.

(** What [wrap_state] leaves alone. *)
Lemma wrap_state_frame t n F s :
  (forall l' k', (t, n) ≠ (VObj l', k') ->
     heap (wrap_state t n F s) !! l' ≫= (.!! k') = heap s !! l' ≫= (.!! k'))
  /\ (forall l', is_Some (heap (wrap_state t n F s) !! l') <->
                 is_Some (heap s !! l'))
  /\ instr (wrap_state t n F s) = instr s
  /\ next_span (wrap_state t n F s) = next_span s.
Proof.
  unfold wrap_state. destruct t; try done.
  destruct (read_prop (heap s) (VObj l) n); try done. cbn.
  split; [|split; [|done]].
  - intros l' k' Hne. apply lookup_write_ne. congruence.
  - intros l'. apply lookup_write_is_Some.
Qed.

Lemma wrap_all_frame s pD pS :
  let s1 := wrap_all (patch_list pD pS) s in
  (forall l' k', ~ patched_member pD pS (VObj l') k' ->
     heap s1 !! l' ≫= (.!! k') = heap s !! l' ≫= (.!! k'))
  /\ (forall l', is_Some (heap s1 !! l') <-> is_Some (heap s !! l'))
  /\ instr s1 = instr s
  /\ next_span s1 = next_span s.
Proof.
  unfold wrap_all. cbn [foldl patch_list].
  set (W1 := wrap_state pD "exec" (Closure ExecWrapper) s).
  set (W2 := wrap_state pD "prepare" (Closure PrepareWrapper) W1).
  set (W3 := wrap_state pS "all" (Closure StatementExecution) W2).
  set (W4 := wrap_state pS "get" (Closure StatementExecution) W3).
  destruct (wrap_state_frame pD "exec" (Closure ExecWrapper) s)
    as (A1 & B1 & C1 & D1).
  destruct (wrap_state_frame pD "prepare" (Closure PrepareWrapper) W1)
    as (A2 & B2 & C2 & D2).
  destruct (wrap_state_frame pS "all" (Closure StatementExecution) W2)
    as (A3 & B3 & C3 & D3).
  destruct (wrap_state_frame pS "get" (Closure StatementExecution) W3)
    as (A4 & B4 & C4 & D4).
  destruct (wrap_state_frame pS "run" (Closure StatementExecution) W4)
    as (A5 & B5 & C5 & D5).
  fold W1 in A2, B2, C2, D2. fold W2 in A3, B3, C3, D3.
  fold W3 in A4, B4, C4, D4. fold W4 in A5, B5, C5, D5.
  cbn zeta. split; [|split; [|split]].
  - intros l' k' Hnot.
    rewrite A5, A4, A3, A2, A1; [reflexivity|..];
      intros [= ? ?]; subst; apply Hnot; unfold patched_member; tauto.
  - intros l'. etrans; [apply B5|]. etrans; [apply B4|].
    etrans; [apply B3|]. etrans; [apply B2|]. apply B1.
  - etrans; [apply C5|]. etrans; [apply C4|]. etrans; [apply C3|].
    etrans; [apply C2|]. apply C1.
  - etrans; [apply D5|]. etrans; [apply D4|]. etrans; [apply D3|].
    etrans; [apply D2|]. apply D1.
Qed.

Lemma read_write_eq h l k v :
  is_Some (h !! l) -> read_prop (write_prop l k v h) (VObj l) k = v.
Proof.
  intros [o Ho]. unfold write_prop. rewrite Ho. cbn.
  rewrite lookup_insert_eq. cbn. by rewrite lookup_insert_eq.
Qed.

Lemma read_prop_fun_object h t n f :
  read_prop h t n = VFun f -> exists l, t = VObj l /\ is_Some (h !! l).
Proof.
  destruct t as [| | | | | l | g]; cbn; try discriminate.
  - destruct (h !! l) eqn:Hl; [|discriminate]. intros _. exists l. eauto.
  - case_decide; discriminate.
Qed.

(** What [wrap_state] does to the member it wraps. *)
Lemma wrap_state_self t n F s f :
  read_prop (heap s) t n = VFun f ->
  read_prop (heap (wrap_state t n F s)) t n = VFun (F f)
  /\ patch_record (wrap_state t n F s) t n = Some f.
Proof.
  intros Hr. destruct (read_prop_fun_object _ _ _ _ Hr) as (l & -> & Hl).
  unfold wrap_state. rewrite Hr. cbn. split.
  - by apply read_write_eq.
  - apply lookup_insert_eq.
Qed.

(** After the patch each member that was a function is the closure of
    its category around that function, and the patch record remembers the
    function. *)
Lemma wrap_all_member s pD pS t n w f :
  (t, n, w) ∈ patch_list pD pS ->
  read_prop (heap s) t n = VFun f ->
  read_prop (heap (wrap_all (patch_list pD pS) s)) t n = VFun (Closure w f)
  /\ patch_record (wrap_all (patch_list pD pS) s) t n = Some f.
Proof.
  intros Hin Hr. unfold wrap_all. cbn [foldl patch_list].
  unfold patch_list in Hin.
  repeat (apply elem_of_cons in Hin as [[= -> -> ->]|Hin]);
    [..|by apply elem_of_nil in Hin];
    rewrite ?wrap_state_read, ?wrap_state_record by congruence;
    apply wrap_state_self;
    rewrite ?wrap_state_read by congruence; exact Hr.
Qed.

(** ** Claims about the callbacks *)

(** C6. Round trip.  When the patch callback has completed, the unpatch
    callback completes too and gives back the state from before the
    patch: every property of every object, so each of the five methods,
    reads the very value it had before; every later call behaves as on the
    state that was never patched; and a call of a client function leaves
    an empty trace, so no span is started. *)
Theorem unpatch_after_patch m s r s1 l :
  patch m s = Res (Normal r) s1 l ->
  unpatch m s1 = Res (Normal VUndefined) s []
  /\ (forall target name,
        read_prop (heap (final (unpatch m s1))) target name =
        read_prop (heap s) target name)
  /\ (forall target name this params,
        invoke target name this params (final (unpatch m s1)) =
        invoke target name this params s)
  /\ (forall target name this params fn id,
        read_prop (heap s) target name = VFun (Native fn id) ->
        invoke target name this params (final (unpatch m s1)) =
        run_native id this params s
        /\ trace (invoke target name this params (final (unpatch m s1))) = []).
Proof.
  intros (pD & pS & Ht & Hfree & -> & -> & ->)%patch_normal_inv.
  assert (Hu : unpatch m (wrap_all (patch_list pD pS) s) =
               Res (Normal VUndefined) s []).
  { pose proof (unpatch_cases m (wrap_all (patch_list pD pS) s)) as Hc.
    rewrite (proj2 (module_targets_wrap_all s pD pS pD pS m) Ht) in Hc.
    rewrite Hc. by rewrite unwrap_all_wrap_all. }
  rewrite Hu. cbn [final]. do 3 (split; [reflexivity|]).
  intros target name this params fn id Hr.
  destruct (read_prop_fun_object _ _ _ _ Hr) as (lt & -> & _).
  unfold invoke. rewrite bind_get_prop. cbn [nullish]. rewrite Hr.
  cbn. split; [reflexivity|].
  unfold run_native. destruct (native_code _ _ _ _). reflexivity.
Qed.

(** C10. The patch callback returns the exports it was given.  It changes
    no property other than [exec] and [prepare] of [DatabaseSync.prototype]
    and [all], [get] and [run] of [StatementSync.prototype]: every other
    property of every object, present or absent, is as before, no object is
    created or removed, and the instrumentation object and the span
    counter are untouched. *)
Theorem patch_frame m s r s1 l :
  patch m s = Res (Normal r) s1 l ->
  r = m
  /\ exists pD pS,
       module_targets (heap s) m = Some (pD, pS)
       /\ (forall l' k, ~ patched_member pD pS (VObj l') k ->
             heap s1 !! l' ≫= (.!! k) = heap s !! l' ≫= (.!! k))
       /\ (forall l', is_Some (heap s1 !! l') <-> is_Some (heap s !! l'))
       /\ instr s1 = instr s
       /\ next_span s1 = next_span s.
Proof.
  intros (pD & pS & Ht & Hfree & -> & -> & ->)%patch_normal_inv.
  split; [reflexivity|]. exists pD, pS. split; [exact Ht|].
  apply wrap_all_frame.
Qed.

(** ** The enable/disable state machine *)

Lemma wrap_state_set_instr t n F i s :
  wrap_state t n F (set_instr i s) = set_instr i (wrap_state t n F s).
Proof.
  unfold wrap_state. destruct t; try reflexivity. cbn.
  destruct (default VUndefined _); reflexivity.
Qed.

Lemma unwrap_state_set_instr t n i s :
  unwrap_state t n (set_instr i s) = set_instr i (unwrap_state t n s).
Proof.
  unfold unwrap_state. destruct t; try reflexivity. cbn.
  destruct (patches s !! _); reflexivity.
Qed.

Lemma wrap_all_set_instr ks i s :
  wrap_all ks (set_instr i s) = set_instr i (wrap_all ks s).
Proof.
  unfold wrap_all. revert s.
  induction ks as [|[[t n] w] ks IH]; intros s; [reflexivity|].
  cbn. rewrite wrap_state_set_instr. apply IH.
Qed.

Lemma unwrap_all_set_instr ks i s :
  unwrap_all ks (set_instr i s) = set_instr i (unwrap_all ks s).
Proof.
  unfold unwrap_all. revert s.
  induction ks as [|[[t n] w] ks IH]; intros s; [reflexivity|].
  cbn. rewrite unwrap_state_set_instr. apply IH.
Qed.

Lemma records_free_set_instr ks i s :
  records_free (set_instr i s) ks = records_free s ks.
Proof.
  unfold records_free.
  induction ks as [|[[t n] w] ks IH]; [reflexivity|]. cbn [forallb].
  rewrite IH. destruct t; reflexivity.
Qed.

Lemma set_instr_twice i i' s : set_instr i (set_instr i' s) = set_instr i s.
Proof. reflexivity. Qed.

Lemma run_hooks_patch m s :
  run_hooks module_patch m s = (patch m >> ret tt) s.
Proof. reflexivity. Qed.

Lemma run_hooks_unpatch m s :
  run_hooks module_unpatch m s = (unpatch m >> ret tt) s.
Proof. reflexivity. Qed.

(** Patching the unpatched state, whatever the instrumentation object. *)
Lemma patch_unpatched m s0 pD pS i :
  module_targets (heap s0) m = Some (pD, pS) ->
  records_free s0 (patch_list pD pS) = true ->
  patch m (set_instr i s0) =
  Res (Normal m) (set_instr i (wrap_all (patch_list pD pS) s0)) [].
Proof.
  intros Ht Hfree. pose proof (patch_cases m (set_instr i s0)) as Hc.
  cbn [heap set_instr] in Hc. rewrite Ht, records_free_set_instr, Hfree in Hc.
  rewrite Hc, wrap_all_set_instr. reflexivity.
Qed.

(** Unpatching the patched state, whatever the instrumentation object. *)
Lemma unpatch_patched m s0 pD pS i :
  module_targets (heap s0) m = Some (pD, pS) ->
  records_free s0 (patch_list pD pS) = true ->
  unpatch m (set_instr i (wrap_all (patch_list pD pS) s0)) =
  Res (Normal VUndefined) (set_instr i s0) [].
Proof.
  intros Ht Hfree.
  pose proof (unpatch_cases m (set_instr i (wrap_all (patch_list pD pS) s0)))
    as Hc.
  cbn [heap set_instr] in Hc.
  rewrite (proj2 (module_targets_wrap_all s0 pD pS pD pS m) Ht) in Hc.
  rewrite Hc, unwrap_all_set_instr, unwrap_all_wrap_all by done.
  reflexivity.
Qed.

Lemma bind_update_instr {B} f (k : M B) s :
  (update_instr f >> k) s = k (set_instr (f (instr s)) s).
Proof. unfold bind, update_instr. cbn. apply result_eta. Qed.

Lemma bind_patch_unpatched m s0 pD pS i :
  module_targets (heap s0) m = Some (pD, pS) ->
  records_free s0 (patch_list pD pS) = true ->
  (patch m >> ret tt) (set_instr i s0) =
  Res (Normal tt) (set_instr i (wrap_all (patch_list pD pS) s0)) [].
Proof.
  intros Ht Hfree. unfold bind. rewrite (patch_unpatched m s0 pD pS i) by done.
  reflexivity.
Qed.

Lemma bind_unpatch_patched m s0 pD pS i :
  module_targets (heap s0) m = Some (pD, pS) ->
  records_free s0 (patch_list pD pS) = true ->
  (unpatch m >> ret tt) (set_instr i (wrap_all (patch_list pD pS) s0)) =
  Res (Normal tt) (set_instr i s0) [].
Proof.
  intros Ht Hfree. unfold bind. rewrite (unpatch_patched m s0 pD pS i) by done.
  reflexivity.
Qed.

(** Every action keeps the invariant and completes normally. *)
Ltac by_invariant :=
  split; [reflexivity | split; [auto | assumption]].

Lemma step_invariant m s0 pD pS s a :
  module_targets (heap s0) m = Some (pD, pS) ->
  records_free s0 (patch_list pD pS) = true ->
  invariant m s0 pD pS s ->
  exists s', perform m a s = Res (Normal tt) s' []
             /\ invariant m s0 pD pS s'.
Proof.
  intros Ht Hfree (i & -> & Hm & Hsc).
  destruct i as [nm ver cfg tr en mo]. cbn in Hm.
  unfold invariant, state_of, installed.
  destruct a as [| | |p]; cbn [perform].
  - unfold enable. cbn [instr set_instr _enabled _moduleExports].
    destruct en.
    + eexists. split; [reflexivity|].
      exists (Instrumentation nm ver cfg tr true mo). by_invariant.
    + cbn [andb]. rewrite bind_update_instr. cbn [instr set_instr].
      destruct Hm as [->| ->].
      * eexists. split; [reflexivity|].
        exists (Instrumentation nm ver cfg tr true None). by_invariant.
      * rewrite run_hooks_patch, set_instr_twice.
        rewrite (bind_patch_unpatched m s0 pD pS) by done.
        eexists. split; [reflexivity|].
        exists (Instrumentation nm ver cfg tr true (Some m)). by_invariant.
  - unfold disable. cbn [instr set_instr _enabled _moduleExports].
    destruct en.
    + cbn [andb]. rewrite bind_update_instr. cbn [instr set_instr].
      destruct Hm as [->| ->].
      * eexists. split; [reflexivity|].
        exists (Instrumentation nm ver cfg tr false None). by_invariant.
      * rewrite run_hooks_unpatch.
        rewrite bool_decide_eq_true_2 by eauto.
        rewrite set_instr_twice.
        rewrite (bind_unpatch_patched m s0 pD pS) by done.
        eexists. split; [reflexivity|].
        exists (Instrumentation nm ver cfg tr false (Some m)). by_invariant.
    + eexists. split; [reflexivity|].
      exists (Instrumentation nm ver cfg tr false mo). by_invariant.
  - unfold bind at 1. unfold onRequire.
    cbn [instr set_instr _enabled _moduleExports].
    destruct Hm as [->| ->].
    + rewrite bind_update_instr. cbn [instr set_instr andb].
      rewrite (bool_decide_eq_false_2 (is_Some None))
        by (intros [? ?]; discriminate).
      rewrite andb_false_r, set_instr_twice. destruct en.
      * change (run_hooks module_patch m) with (patch m >> ret tt).
        rewrite bind_assoc. unfold bind at 1.
        rewrite (patch_unpatched m s0 pD pS) by done. cbn.
        eexists. split; [reflexivity|].
        exists (Instrumentation nm ver cfg tr true (Some m)). by_invariant.
      * cbn. eexists. split; [reflexivity|].
        exists (Instrumentation nm ver cfg tr false (Some m)). by_invariant.
    + cbn. eexists. split; [reflexivity|].
      exists (Instrumentation nm ver cfg tr en (Some m)). by_invariant.
  - unfold setTracerProvider, update_instr.
    cbn [instr set_instr with_tracer instrumentationName
         instrumentationVersion _config _enabled _moduleExports].
    eexists. split; [reflexivity|].
    exists (Instrumentation nm ver cfg (Tracer (Some p) nm ver) en mo).
    split; [reflexivity|]. split; [exact Hm|].
    destruct Hsc as (? & ? & ? & ?). done.
Qed.

Lemma initial_invariant m s0 pD pS config :
  instr s0 = SqliteInstrumentation config ->
  invariant m s0 pD pS s0.
Proof.
  intros Hi. exists (instr s0). rewrite Hi. split; [|split].
  - unfold state_of, installed. cbn. rewrite <- Hi. by destruct s0.
  - by left.
  - done.
Qed.

Lemma reachable_invariant m s0 pD pS config s :
  instr s0 = SqliteInstrumentation config ->
  module_targets (heap s0) m = Some (pD, pS) ->
  records_free s0 (patch_list pD pS) = true ->
  reachable m s0 s ->
  invariant m s0 pD pS s.
Proof.
  intros Hi Ht Hfree Hr. induction Hr as [|s a Hr IH].
  - by eapply initial_invariant.
  - destruct (step_invariant m s0 pD pS s a Ht Hfree IH) as (s' & Hs & Hinv).
    rewrite Hs. exact Hinv.
Qed.

Lemma records_free_member s ks t n w :
  records_free s ks = true -> (t, n, w) ∈ ks -> patch_record s t n = None.
Proof.
  unfold records_free. intros Hall Hin.
  rewrite forallb_forall in Hall.
  apply list_elem_of_In in Hin. specialize (Hall _ Hin). cbn in Hall.
  by apply bool_decide_eq_true in Hall.
Qed.

(** In a state of the machine each of the five members is the original
    function, or its closure when the instrumentation is installed; the
    patch record has an entry exactly in the second case. *)
Lemma invariant_member m s0 pD pS s t n w f :
  records_free s0 (patch_list pD pS) = true ->
  invariant m s0 pD pS s ->
  (t, n, w) ∈ patch_list pD pS ->
  read_prop (heap s0) t n = VFun f ->
  if installed (instr s)
  then read_prop (heap s) t n = VFun (Closure w f) /\ patch_record s t n = Some f
  else read_prop (heap s) t n = VFun f /\ patch_record s t n = None.
Proof.
  intros Hfree (i & -> & _ & _) Hin Hr. unfold state_of.
  cbn [instr set_instr]. destruct (installed i).
  - destruct (wrap_all_member s0 pD pS t n w f Hin Hr) as [Hread Hrec].
    split; [exact Hread|]. destruct t; exact Hrec.
  - split; [exact Hr|].
    pose proof (records_free_member s0 _ t n w Hfree Hin) as Hrec.
    destruct t; exact Hrec.
Qed.

(** ** Computations that leave the instrumentation object alone *)

Lemma keeps_ret {A} (a : A) : keeps_instr (ret a).
Proof. intros s. reflexivity. Qed.

Lemma keeps_bind {A B} (m : M A) (f : A -> M B) :
  keeps_instr m -> (forall a, keeps_instr (f a)) -> keeps_instr (bind m f).
Proof.
  intros Hm Hf s. unfold bind. specialize (Hm s).
  destruct (m s) as [[a|e] s1 l1]; cbn in *; [|exact Hm].
  rewrite Hf. exact Hm.
Qed.

Lemma keeps_throw_error {A} name msg : keeps_instr (@throw_error A name msg).
Proof. intros s. reflexivity. Qed.

Lemma keeps_get_prop v k : keeps_instr (get_prop v k).
Proof. intros s. unfold get_prop. destruct (nullish v); reflexivity. Qed.

Lemma keeps_wrap t n F : keeps_instr (_wrap t n F).
Proof.
  intros s. rewrite _wrap_run. destruct (patch_record s t n); [reflexivity|].
  apply wrap_state_frame.
Qed.

Lemma keeps_unwrap t n : keeps_instr (_unwrap t n).
Proof.
  intros s. rewrite _unwrap_run. unfold unwrap_state.
  destruct t; try reflexivity. cbn. destruct (patches s !! _); reflexivity.
Qed.

Lemma keeps_massWrap t ns F : keeps_instr (_massWrap t ns F).
Proof.
  induction ns as [|n ns IH]; cbn; [apply keeps_ret|].
  apply keeps_bind; [apply keeps_wrap | intros _; exact IH].
Qed.

Lemma keeps_massUnwrap t ns : keeps_instr (_massUnwrap t ns).
Proof.
  induction ns as [|n ns IH]; cbn; [apply keeps_ret|].
  apply keeps_bind; [apply keeps_unwrap | intros _; exact IH].
Qed.

Create HintDb keeps.
#[local] Hint Resolve keeps_ret keeps_throw_error keeps_get_prop keeps_wrap
  keeps_unwrap keeps_massWrap keeps_massUnwrap : keeps.

Ltac keeps := repeat (apply keeps_bind; [|intros ?]); auto with keeps.

Lemma keeps_patch m : keeps_instr (patch m).
Proof. unfold patch. keeps. Qed.

Lemma keeps_unpatch m : keeps_instr (unpatch m).
Proof. unfold unpatch. keeps. Qed.

Lemma keeps_run_hooks_patch m : keeps_instr (run_hooks module_patch m).
Proof.
  change (run_hooks module_patch m) with (patch m >> ret tt).
  apply keeps_bind; [apply keeps_patch | intros _; apply keeps_ret].
Qed.

Lemma keeps_run_hooks_unpatch m : keeps_instr (run_hooks module_unpatch m).
Proof.
  change (run_hooks module_unpatch m) with (unpatch m >> ret tt).
  apply keeps_bind; [apply keeps_unpatch | intros _; apply keeps_ret].
Qed.

(** [enable()] leaves the instrumentation enabled and [disable()] leaves
    it disabled, whatever the callbacks do. *)
Lemma enable_enabled s : _enabled (instr (final (enable s))) = true.
Proof.
  unfold enable. destruct (_enabled (instr s)) eqn:He; [exact He|].
  rewrite bind_update_instr.
  destruct (_moduleExports (instr s)).
  - rewrite keeps_run_hooks_patch. reflexivity.
  - reflexivity.
Qed.

Lemma disable_disabled s : _enabled (instr (final (disable s))) = false.
Proof.
  unfold disable. destruct (_enabled (instr s)) eqn:He; [|exact He].
  rewrite bind_update_instr.
  destruct (_moduleExports (instr s)).
  - rewrite keeps_run_hooks_unpatch. reflexivity.
  - reflexivity.
Qed.

Lemma enable_again s :
  _enabled (instr s) = true -> enable s = Res (Normal tt) s [].
Proof. intros He. unfold enable. rewrite He. reflexivity. Qed.

Lemma disable_again s :
  _enabled (instr s) = false -> disable s = Res (Normal tt) s [].
Proof. intros He. unfold disable. rewrite He. reflexivity. Qed.

(** ** Calls of the five methods *)

Lemma invoke_function t n f this params s :
  read_prop (heap s) t n = VFun f ->
  invoke t n this params s = func_code f this params s.
Proof.
  intros Hr. destruct (read_prop_fun_object _ _ _ _ Hr) as (l & -> & _).
  unfold invoke. rewrite bind_get_prop. cbn [nullish]. rewrite Hr.
  reflexivity.
Qed.

Lemma client_methods_member h pD pS t n w :
  client_methods h pD pS = true ->
  (t, n, w) ∈ patch_list pD pS ->
  exists id, read_prop h t n = VFun (Native n id).
Proof.
  unfold client_methods. intros Hall Hin.
  rewrite forallb_forall in Hall.
  apply list_elem_of_In in Hin. specialize (Hall _ Hin). cbn in Hall.
  destruct (read_prop h t n) as [| | | | | |[fn id|]]; try discriminate.
  apply bool_decide_eq_true in Hall. subst fn. eauto.
Qed.

(** The trace of a closure around a client function: the span is started,
    the function is applied, the status is set, the span is ended. *)
Lemma closure_native_trace w fn id this params s :
  receiver_ok w this = true ->
  trace (func_code (Closure w (Native fn id)) this params s) =
  [ EvStartSpan (next_span s) (_tracer (instr s)) fn
      {| kind := CLIENT;
         attributes := span_attributes w this params (heap s) |};
    EvApply fn this params;
    EvSetStatus (next_span s)
      (status_of (run_native id this params
                    (set_next_span (S (next_span s)) s)));
    EvEnd (next_span s) ].
Proof.
  intros Hok. cbn [func_code fname]. rewrite wrapper_run by done.
  cbn zeta. cbn [trace]. rewrite genericWrap_run. cbn zeta.
  cbn [trace op_name op_code]. rewrite run_native_trace. reflexivity.
Qed.

(** ** Claims about the state machine *)

(** C7. In every state the enable/disable machine reaches, each of the
    five members is either the original function with no entry in the
    patch record, or (when the instrumentation is enabled and the module
    loaded) the closure around the original with the original remembered:
    a closure is never wrapped again.  Every action completes normally, so
    the interceptor never meets a member that is already wrapped.
    Unwrapping a member that is not in the patch record changes nothing
    and raises no error.  A second [enable()] or [disable()] in a row does
    nothing, so the methods, and the spans a call of them starts, are as
    after the first. *)
Theorem patch_record_invariant m s0 pD pS config s :
  instr s0 = SqliteInstrumentation config ->
  module_targets (heap s0) m = Some (pD, pS) ->
  records_free s0 (patch_list pD pS) = true ->
  reachable m s0 s ->
  (forall t n w f,
      (t, n, w) ∈ patch_list pD pS ->
      read_prop (heap s0) t n = VFun f ->
      if installed (instr s)
      then read_prop (heap s) t n = VFun (Closure w f)
           /\ patch_record s t n = Some f
      else read_prop (heap s) t n = VFun f /\ patch_record s t n = None)
  /\ (forall a, outcome (perform m a s) = Normal tt)
  /\ (forall s' t n,
        patch_record s' t n = None -> _unwrap t n s' = Res (Normal tt) s' [])
  /\ (forall s',
        enable (final (enable s')) = Res (Normal tt) (final (enable s')) []
        /\ disable (final (disable s')) =
           Res (Normal tt) (final (disable s')) [])
  /\ (forall s' t n this params,
        invoke t n this params (final (enable (final (enable s')))) =
        invoke t n this params (final (enable s'))
        /\ invoke t n this params (final (disable (final (disable s')))) =
           invoke t n this params (final (disable s'))).
Proof.
  intros Hi Ht Hfree Hr.
  pose proof (reachable_invariant m s0 pD pS config s Hi Ht Hfree Hr) as Hinv.
  split; [|split; [|split; [|split]]].
  - intros t n w f Hin Hread. by eapply invariant_member.
  - intros a.
    destruct (step_invariant m s0 pD pS s a Ht Hfree Hinv) as (s' & -> & _).
    reflexivity.
  - intros s' t n Hrec. rewrite _unwrap_run. unfold unwrap_state.
    destruct t; try reflexivity. cbn in Hrec. rewrite Hrec. reflexivity.
  - intros s'. split.
    + apply enable_again, enable_enabled.
    + apply disable_again, disable_disabled.
  - intros s' t n this params.
    rewrite (enable_again (final (enable s'))) by apply enable_enabled.
    rewrite (disable_again (final (disable s'))) by apply disable_disabled.
    done.
Qed.

(** ** Claims about the spans *)

(** C4. Each closure starts one span of its own, before it hands over to
    [genericWrap], and that span carries the attributes of its category:
    for [exec] the database system and nothing else, so no query text;
    for [prepare] the database system and, as query text, the first
    argument of the call ([undefined] when there is none); for
    [statementExecution] the database system and, as query text, the
    [sourceSQL] property of the receiver, whatever the arguments are.  A
    receiver that cannot be read makes [statementExecution] throw before
    any span is started.  When the instrumentation is installed, [exec]
    and [prepare] of the connection prototype and [all], [get], [run] of
    the statement prototype are the closures of these categories, and a
    call of one of them starts exactly one span, with these attributes. *)
Theorem span_attributes_by_category :
  (forall w original this params s,
      receiver_ok w this = true ->
      trace (wrapper_code w original this params s) =
      EvStartSpan (next_span s) (_tracer (instr s)) (op_name original)
        {| kind := CLIENT;
           attributes := span_attributes w this params (heap s) |}
        :: trace (genericWrap original this params (next_span s)
                    (set_next_span (S (next_span s)) s)))
  /\ (forall w f this params s,
        receiver_ok w this = false ->
        trace (func_code (Closure w f) this params s) = [])
  /\ (forall this params h,
        span_attributes ExecWrapper this params h =
          {[ ATTR_DB_SYSTEM := VStr DB_SYSTEM_VALUE_SQLITE ]}
        /\ span_attributes ExecWrapper this params h !! ATTR_DB_QUERY_TEXT
           = None)
  /\ (forall this params h,
        span_attributes PrepareWrapper this params h !! ATTR_DB_SYSTEM
          = Some (VStr DB_SYSTEM_VALUE_SQLITE)
        /\ span_attributes PrepareWrapper this params h !! ATTR_DB_QUERY_TEXT
           = Some (default VUndefined (params !! 0%nat))
        /\ dom (span_attributes PrepareWrapper this params h)
           = {[ ATTR_DB_SYSTEM; ATTR_DB_QUERY_TEXT ]})
  /\ (forall this params h,
        span_attributes StatementExecution this params h !! ATTR_DB_SYSTEM
          = Some (VStr DB_SYSTEM_VALUE_SQLITE)
        /\ span_attributes StatementExecution this params h
             !! ATTR_DB_QUERY_TEXT
           = Some (read_prop h this "sourceSQL")
        /\ dom (span_attributes StatementExecution this params h)
           = {[ ATTR_DB_SYSTEM; ATTR_DB_QUERY_TEXT ]}
        /\ forall params',
             span_attributes StatementExecution this params' h =
             span_attributes StatementExecution this params h)
  /\ (forall m s0 pD pS config s t n w this params,
        instr s0 = SqliteInstrumentation config ->
        module_targets (heap s0) m = Some (pD, pS) ->
        records_free s0 (patch_list pD pS) = true ->
        client_methods (heap s0) pD pS = true ->
        reachable m s0 s ->
        installed (instr s) = true ->
        (t, n, w) ∈ patch_list pD pS ->
        receiver_ok w this = true ->
        exists id rest,
          read_prop (heap s) t n = VFun (Closure w (Native n id))
          /\ trace (invoke t n this params s) =
             EvStartSpan (next_span s) (_tracer (instr s)) n
               {| kind := CLIENT;
                  attributes := span_attributes w this params (heap s) |}
               :: rest
          /\ count is_startSpan rest = 0%nat).
Proof.
  split; [|split; [|split; [|split; [|split]]]].
  - intros w original this params s Hok. rewrite wrapper_run by done.
    reflexivity.
  - intros w f this params s Hok. by apply closure_nullish_trace.
  - intros this params h. split; reflexivity.
  - intros this params h. split; [reflexivity|]. split.
    + destruct params; reflexivity.
    + unfold span_attributes. rewrite dom_insert_L, dom_singleton_L.
      reflexivity.
  - intros this params h. split; [reflexivity|]. split; [reflexivity|].
    split; [|reflexivity].
    unfold span_attributes. rewrite dom_insert_L, dom_singleton_L.
    reflexivity.
  - intros m s0 pD pS config s t n w this params Hi Ht Hfree Hcl Hr Hinst
      Hin Hok.
    pose proof (reachable_invariant m s0 pD pS config s Hi Ht Hfree Hr)
      as Hinv.
    destruct (client_methods_member _ _ _ _ _ _ Hcl Hin) as (id & Hread0).
    pose proof (invariant_member m s0 pD pS s t n w _ Hfree Hinv Hin Hread0)
      as Hmem.
    rewrite Hinst in Hmem. destruct Hmem as [Hread _].
    exists id. eexists. split; [exact Hread|].
    rewrite (invoke_function _ _ _ _ _ _ Hread).
    rewrite closure_native_trace by done. split; reflexivity.
Qed.

(** C5. The span a closure starts has kind CLIENT, is named by the [name]
    of the function it wraps, and is started on the tracer of the
    instrumentation.  The constructor gives the instrumentation the name
    and version of the package, and its tracer that scope.  Hence, when
    the instrumentation is installed over the functions of the client,
    every span a call of [exec], [prepare], [all], [get] or [run] starts
    has kind CLIENT, the name of that method, and the package's name and
    version as its scope; and a call whose receiver can be read starts
    exactly one span. *)
Theorem span_kind_name_scope :
  (forall w original this params s,
      receiver_ok w this = true ->
      exists attrs,
        trace (wrapper_code w original this params s) =
        EvStartSpan (next_span s) (_tracer (instr s)) (op_name original)
          {| kind := CLIENT; attributes := attrs |}
          :: trace (genericWrap original this params (next_span s)
                      (set_next_span (S (next_span s)) s)))
  /\ (forall config,
        scoped (SqliteInstrumentation config)
        /\ _tracer (SqliteInstrumentation config) =
           Tracer None pkg_name pkg_version)
  /\ (forall m s0 pD pS config s t n w this params,
        instr s0 = SqliteInstrumentation config ->
        module_targets (heap s0) m = Some (pD, pS) ->
        records_free s0 (patch_list pD pS) = true ->
        client_methods (heap s0) pD pS = true ->
        reachable m s0 s ->
        installed (instr s) = true ->
        (t, n, w) ∈ patch_list pD pS ->
        n ∈ ["exec"; "prepare"; "all"; "get"; "run"]
        /\ Forall (span_started_as n CLIENT pkg_name pkg_version)
                  (trace (invoke t n this params s))
        /\ (receiver_ok w this = true ->
            count is_startSpan (trace (invoke t n this params s)) = 1%nat)).
Proof.
  split; [|split].
  - intros w original this params s Hok. eexists.
    rewrite wrapper_run by done. reflexivity.
  - intros config. split; [|reflexivity]. done.
  - intros m s0 pD pS config s t n w this params Hi Ht Hfree Hcl Hr Hinst Hin.
    pose proof (reachable_invariant m s0 pD pS config s Hi Ht Hfree Hr)
      as Hinv.
    destruct (client_methods_member _ _ _ _ _ _ Hcl Hin) as (id & Hread0).
    pose proof (invariant_member m s0 pD pS s t n w _ Hfree Hinv Hin Hread0)
      as Hmem.
    rewrite Hinst in Hmem. destruct Hmem as [Hread _].
    rewrite (invoke_function _ _ _ _ _ _ Hread).
    split; [|split].
    + unfold patch_list in Hin.
      repeat (apply elem_of_cons in Hin as [[= -> -> ->]|Hin]);
        [..|by apply elem_of_nil in Hin];
        rewrite !elem_of_cons; tauto.
    + destruct (receiver_ok w this) eqn:Hok.
      * rewrite closure_native_trace by done.
        destruct Hinv as (i & -> & _ & Hsc). cbn [instr state_of set_instr].
        destruct Hsc as (_ & _ & Hn & Hv).
        repeat constructor; assumption.
      * rewrite closure_nullish_trace by done. constructor.
    + intros Hok. rewrite closure_native_trace by done. reflexivity.
Qed.

(** * Further properties of the code *)

(** ** Calls through nested closures *)

Lemma status_of_result (r r' : result value) :
  outcome r = outcome r' -> final r = final r' -> status_of r = status_of r'.
Proof. unfold status_of. intros -> ->. reflexivity. Qed.

Lemma agree_trans (r1 r2 r3 : result value) :
  agree r1 r2 -> agree r2 r3 -> agree r1 r3.
Proof. unfold agree. intros [-> ->] [-> ->]. done. Qed.

Lemma agree_refl (r : result value) : agree r r.
Proof. done. Qed.

(** A closure with a readable receiver, run: its completion and final
    state are those of the function it wraps, called with the counter
    moved by one. *)
Lemma closure_run w g this params s :
  receiver_ok w this = true ->
  let r := func_code g this params (set_next_span (S (next_span s)) s) in
  func_code (Closure w g) this params s =
  Res (outcome r) (final r)
      (EvStartSpan (next_span s) (_tracer (instr s)) (fname g)
         {| kind := CLIENT;
            attributes := span_attributes w this params (heap s) |}
         :: EvApply (fname g) this params
         :: trace r ++ [EvSetStatus (next_span s) (status_of r);
                        EvEnd (next_span s)]).
Proof.
  intros Hok r. subst r. cbn [func_code]. rewrite wrapper_run by done.
  cbn zeta. rewrite genericWrap_run. reflexivity.
Qed.

(** X1. Every status set during a call of a function object, at whatever
    depth of nesting, is the status of the call as a whole: OK without a
    message when the call returns, ERROR with the [message] of the thrown
    value when it throws. *)
Theorem status_reflects_outcome f : forall this params s,
  Forall (fun e => forall sp st,
            e = EvSetStatus sp st ->
            st = status_of (func_code f this params s)
            /\ match outcome (func_code f this params s) with
               | Normal _ => st = {| code := OK; message := None |}
               | Throw err =>
                   code st = ERROR
                   /\ message st =
                      Some (if nullish err then VUndefined
                            else read_prop
                                   (heap (final (func_code f this params s)))
                                   err "message")
               end)
         (trace (func_code f this params s)).
Proof.
  assert (Hst : forall r : result value,
             match outcome r with
             | Normal _ => status_of r = {| code := OK; message := None |}
             | Throw err =>
                 code (status_of r) = ERROR
                 /\ message (status_of r) =
                    Some (if nullish err then VUndefined
                          else read_prop (heap (final r)) err "message")
             end).
  { intros r. unfold status_of. destruct (outcome r); done. }
  induction f as [name id | w g IH]; intros this params s.
  - cbn [func_code]. rewrite run_native_trace. constructor.
  - destruct (receiver_ok w this) eqn:Hok.
    + rewrite closure_run by done. cbn zeta.
      set (r := func_code g this params (set_next_span (S (next_span s)) s)).
      specialize (IH this params (set_next_span (S (next_span s)) s)).
      fold r in IH. specialize (Hst r). cbn [outcome final trace].
      assert (Hs : status_of
                     {| outcome := outcome r; final := final r;
                        trace := EvStartSpan (next_span s) (_tracer (instr s))
                                   (fname g)
                                   {| kind := CLIENT;
                                      attributes :=
                                        span_attributes w this params (heap s)
                                   |}
                                 :: EvApply (fname g) this params
                                 :: trace r ++
                                    [EvSetStatus (next_span s) (status_of r);
                                     EvEnd (next_span s)] |}
                   = status_of r) by (by apply status_of_result).
      rewrite Hs.
      apply Forall_cons. split; [intros ? ? [=]|].
      apply Forall_cons. split; [intros ? ? [=]|].
      apply Forall_app. split; [exact IH|].
      apply Forall_cons. split.
      { intros sp st [= _ <-]. split; [reflexivity | exact Hst]. }
      apply Forall_cons. split; [intros ? ? [=] | apply Forall_nil_2].
    + rewrite closure_nullish_trace by done. constructor.
Qed.

(** X2. A call through any number of closures whose receiver is readable
    completes exactly as the function of the client at the centre, and
    leaves the heap that function leaves.  When some [statementExecution]
    among them cannot read its receiver, the function of the client is
    never reached: the call throws the [TypeError] of that read, and the
    heap only gains the error object. *)
Theorem nested_call_transparent f this params s :
  (readable f this = true ->
   agree (func_code f this params s) (func_code (core f) this params s))
  /\ (readable f this = false ->
      agree (func_code f this params s)
            (throw_error "TypeError" (cannot_read this "sourceSQL") s)).
Proof.
  induction f as [name id | w g [IH1 IH2]]; cbn [readable core].
  - split; [intros _; apply agree_refl | discriminate].
  - split.
    + intros [Hok Hr]%andb_true_iff.
      eapply agree_trans; [by apply closure_transparent | by apply IH1].
    + intros Hno. destruct (receiver_ok w this) eqn:Hok.
      * cbn in Hno.
        eapply agree_trans; [by apply closure_transparent | by apply IH2].
      * rewrite closure_nullish_receiver by done. apply agree_refl.
Qed.

(** X3. The whole run of a call through nested closures with a readable
    receiver: the completion and the final state are those of the function
    of the client, called after one span number per closure has been
    handed out; the trace starts the spans from the outermost closure
    inwards, each with the attributes of its category read in the heap of
    the call, applies each wrapped function to the same receiver and
    arguments, and closes the spans from the innermost outwards, each with
    the status of the call. *)
Theorem nested_call_run f : forall this params s,
  readable f this = true ->
  let r := func_code (core f) this params
             (set_next_span (depth f + next_span s) s) in
  func_code f this params s =
  Res (outcome r) (final r)
      (nested_trace f this params (_tracer (instr s)) (heap s) (next_span s)
         (status_of r)).
Proof.
  induction f as [name id | w g IH]; intros this params s Hr r; subst r.
  - cbn [core depth Nat.add nested_trace func_code].
    replace (set_next_span (next_span s) s) with s by (by destruct s).
    rewrite <- (run_native_trace id this params s). by destruct (run_native _ _ _ _).
  - cbn [readable] in Hr. apply andb_true_iff in Hr as [Hok Hr].
    rewrite closure_run by done. cbn zeta.
    rewrite (IH this params (set_next_span (S (next_span s)) s) Hr).
    cbn zeta. cbn [core depth nested_trace outcome final trace next_span
                   set_next_span heap instr].
    replace (set_next_span (depth g + S (next_span s))
               (set_next_span (S (next_span s)) s))
      with (set_next_span (S (depth g) + next_span s) s)
      by (unfold set_next_span; cbn; f_equal; lia).
    f_equal.
Qed.

(** X4. What a call returns or throws, and the heap it leaves, do not
    depend on the instrumentation object (its tracer, its flags) or on
    the span counter. *)
Theorem call_independent_of_tracing f this params s i n :
  agree (func_code f this params (set_next_span n (set_instr i s)))
        (func_code f this params s).
Proof. apply func_code_heap. reflexivity. Qed.

(** ** Names *)

(** X6. The closures are named [exec], [prepare] and
    [statementExecution].  So once the patch callback has run over the
    functions of the client, the [name] of [exec] and of [prepare] reads as
    before, while the [name] of [all], [get] and [run] reads
    "statementExecution"; and a closure put around a statement closure
    names its span "statementExecution", not after the method. *)
Theorem names_after_patch :
  (forall m s r s1 l pD pS t n w,
      patch m s = Res (Normal r) s1 l ->
      module_targets (heap s) m = Some (pD, pS) ->
      client_methods (heap s) pD pS = true ->
      (t, n, w) ∈ patch_list pD pS ->
      read_prop (heap s) (read_prop (heap s) t n) "name" = VStr n
      /\ read_prop (heap s1) (read_prop (heap s1) t n) "name" =
         VStr (match w with
               | StatementExecution => "statementExecution"
               | _ => n
               end))
  /\ (forall w g this params s,
        receiver_ok w this = true ->
        exists opts rest,
          trace (func_code (Closure w (Closure StatementExecution g))
                   this params s) =
          EvStartSpan (next_span s) (_tracer (instr s)) "statementExecution"
            opts :: rest).
Proof.
  split.
  - intros m s r s1 l pD pS t n w Hp Ht Hcl Hin.
    apply patch_normal_inv in Hp as (pD' & pS' & Ht' & _ & _ & -> & _).
    rewrite Ht in Ht'. injection Ht' as <- <-.
    destruct (client_methods_member _ _ _ _ _ _ Hcl Hin) as (id & Hread).
    destruct (wrap_all_member s pD pS t n w _ Hin Hread) as [Hread1 _].
    rewrite Hread, Hread1. split; [reflexivity|].
    unfold patch_list in Hin.
    repeat (apply elem_of_cons in Hin as [[= -> -> ->]|Hin]);
      [..|by apply elem_of_nil in Hin]; reflexivity.
  - intros w g this params s Hok. rewrite closure_run by done.
    cbn zeta. cbn [trace fname]. eauto.
Qed.

(** ** Computations that start no span *)

Lemma silent_ret {A} (a : A) : silent (ret a).
Proof. intros s. done. Qed.

Lemma silent_bind {A B} (m : M A) (f : A -> M B) :
  silent m -> (forall a, silent (f a)) -> silent (bind m f).
Proof.
  intros Hm Hf s. unfold bind. destruct (Hm s) as [Ht Hn].
  destruct (m s) as [[a|e] s1 l1]; cbn in *; [|done].
  destruct (Hf a s1) as [Ht' Hn']. rewrite Ht, Ht', Hn'. done.
Qed.

Lemma silent_throw_error {A} name msg : silent (@throw_error A name msg).
Proof. intros s. done. Qed.

Lemma silent_get_prop v k : silent (get_prop v k).
Proof. intros s. unfold get_prop. destruct (nullish v); done. Qed.

Lemma silent_wrap t n F : silent (_wrap t n F).
Proof.
  intros s. rewrite _wrap_run. destruct (patch_record s t n); [done|].
  cbn. split; [done|]. apply wrap_state_frame.
Qed.

Lemma silent_unwrap t n : silent (_unwrap t n).
Proof.
  intros s. rewrite _unwrap_run. unfold unwrap_state. cbn.
  destruct t; try done. destruct (patches s !! _); done.
Qed.

Lemma silent_massWrap t ns F : silent (_massWrap t ns F).
Proof.
  induction ns as [|n ns IH]; cbn; [apply silent_ret|].
  apply silent_bind; [apply silent_wrap | intros _; exact IH].
Qed.

Lemma silent_massUnwrap t ns : silent (_massUnwrap t ns).
Proof.
  induction ns as [|n ns IH]; cbn; [apply silent_ret|].
  apply silent_bind; [apply silent_unwrap | intros _; exact IH].
Qed.

Lemma silent_update_instr f : silent (update_instr f).
Proof. intros s. done. Qed.

Create HintDb silent.
#[local] Hint Resolve silent_ret silent_throw_error silent_get_prop
  silent_wrap silent_unwrap silent_massWrap silent_massUnwrap
  silent_update_instr : silent.

Ltac silent := repeat (apply silent_bind; [|intros ?]); auto with silent.

Lemma silent_patch m : silent (patch m).
Proof. unfold patch. silent. Qed.

Lemma silent_unpatch m : silent (unpatch m).
Proof. unfold unpatch. silent. Qed.

Lemma silent_run_hooks_patch m : silent (run_hooks module_patch m).
Proof.
  change (run_hooks module_patch m) with (patch m >> ret tt).
  apply silent_bind; [apply silent_patch | intros _; apply silent_ret].
Qed.

Lemma silent_run_hooks_unpatch m : silent (run_hooks module_unpatch m).
Proof.
  change (run_hooks module_unpatch m) with (unpatch m >> ret tt).
  apply silent_bind; [apply silent_unpatch | intros _; apply silent_ret].
Qed.


(** ** A module that lacks a class *)

(** What [throw_error] leaves: the patch record, and every object there
    was; the properties the callbacks read are not those of an error
    object. *)
Lemma throw_error_frame {A} name msg s :
  exists l, @throw_error A name msg s
            = Res (Throw (VObj l))
                  (set_heap (<[l := {[ "name" := VStr name;
                                       "message" := VStr msg ]}]> (heap s)) s)
                  []
            /\ heap s !! l = None.
Proof.
  unfold throw_error, new_error. eexists. split; [reflexivity|].
  apply not_elem_of_dom, is_fresh.
Qed.

Lemma read_after_error h l (o : gmap string value) v k :
  h !! l = None -> o !! k = None ->
  read_prop (<[l := o]> h) v k = read_prop h v k.
Proof.
  intros Hl Hk. destruct v as [| | | | | l' |]; try reflexivity. cbn.
  destruct (decide (l = l')) as [<-|Hne].
  - rewrite lookup_insert_eq, Hl. cbn. by rewrite Hk.
  - by rewrite lookup_insert_ne.
Qed.

Lemma throw_error_read {A} name msg s v k :
  k ≠ "name" -> k ≠ "message" ->
  read_prop (heap (final (@throw_error A name msg s))) v k
  = read_prop (heap s) v k.
Proof.
  intros Hn Hm. destruct (@throw_error_frame A name msg s) as (l & -> & Hl).
  cbn. apply read_after_error; [exact Hl|].
  rewrite lookup_insert_ne by done. by rewrite lookup_singleton_ne.
Qed.

Lemma throw_error_record {A} name msg s t n :
  patch_record (final (@throw_error A name msg s)) t n = patch_record s t n.
Proof. destruct t; reflexivity. Qed.

(** The patch callback on exports whose [StatementSync] cannot be read. *)
Lemma patch_missing_statement m s :
  let d := read_prop (heap s) m "DatabaseSync" in
  let st := read_prop (heap s) m "StatementSync" in
  let pD := read_prop (heap s) d "prototype" in
  nullish m = false -> nullish d = false -> nullish st = true ->
  patch_record s pD "exec" = None ->
  patch_record s pD "prepare" = None ->
  patch m s =
  throw_error "TypeError" (cannot_read st "prototype")
    (wrap_state pD "prepare" (Closure PrepareWrapper)
       (wrap_state pD "exec" (Closure ExecWrapper) s)).
Proof.
  intros d st pD Hm Hd Hst E1 E2. unfold patch.
  rewrite bind_get_prop, Hm, bind_get_prop, Hm, bind_get_prop. fold d st.
  rewrite Hd. fold pD. rewrite bind_wrap, E1, bind_get_prop, Hd.
  rewrite wrap_state_read by congruence. fold pD.
  rewrite bind_wrap, wrap_state_record, E2 by congruence.
  rewrite bind_get_prop, Hst. reflexivity.
Qed.

(** The unpatch callback on such exports. *)
Lemma unpatch_missing_statement m s :
  let d := read_prop (heap s) m "DatabaseSync" in
  let st := read_prop (heap s) m "StatementSync" in
  let pD := read_prop (heap s) d "prototype" in
  nullish m = false -> nullish d = false -> nullish st = true ->
  unpatch m s =
  throw_error "TypeError" (cannot_read st "prototype")
    (unwrap_state pD "prepare" (unwrap_state pD "exec" s)).
Proof.
  intros d st pD Hm Hd Hst. unfold unpatch.
  rewrite bind_get_prop, Hm, bind_get_prop, Hm, bind_get_prop. fold d st.
  rewrite Hd. fold pD. rewrite bind_unwrap, bind_get_prop, Hd.
  rewrite unwrap_state_read by congruence. fold pD.
  rewrite bind_unwrap, bind_get_prop, Hst. reflexivity.
Qed.

Lemma unwrap_state_self l n s f :
  patches s !! (l, n) = Some f ->
  is_Some (heap s !! l) ->
  read_prop (heap (unwrap_state (VObj l) n s)) (VObj l) n = VFun f.
Proof.
  intros Hrec Hobj. unfold unwrap_state. rewrite Hrec. cbn [heap set_heap
    set_patches]. by apply read_write_eq.
Qed.

Lemma unwrap_state_record_eq t n s :
  patch_record (unwrap_state t n s) t n = None.
Proof.
  unfold unwrap_state. destruct t as [| | | | | l |]; try reflexivity.
  destruct (patches s !! (l, n)) eqn:Hrec; cbn; [|exact Hrec].
  apply lookup_delete_eq.
Qed.

Lemma unwrap_state_record_ne t n s t' n' :
  (t, n) ≠ (t', n') ->
  patch_record (unwrap_state t n s) t' n' = patch_record s t' n'.
Proof.
  intros Hne. unfold unwrap_state. destruct t as [| | | | | l |]; try reflexivity.
  destruct (patches s !! (l, n)); [|reflexivity].
  destruct t'; try reflexivity. cbn. apply lookup_delete_ne. congruence.
Qed.

Lemma unwrap_state_noop t n s :
  patch_record s t n = None -> unwrap_state t n s = s.
Proof.
  unfold unwrap_state. destruct t; try reflexivity. cbn. by intros ->.
Qed.

Lemma unwrap_state_is_Some t n s l :
  is_Some (heap (unwrap_state t n s) !! l) <-> is_Some (heap s !! l).
Proof.
  unfold unwrap_state. destruct t; try reflexivity.
  destruct (patches s !! _); [|reflexivity]. cbn.
  apply lookup_write_is_Some.
Qed.

Lemma throw_error_named {A} name msg s :
  exists e, outcome (@throw_error A name msg s) = Throw e
            /\ read_prop (heap (final (@throw_error A name msg s))) e "name"
               = VStr name.
Proof.
  destruct (@throw_error_frame A name msg s) as (l & -> & _).
  exists (VObj l). split; [reflexivity|]. cbn.
  rewrite lookup_insert_eq. cbn. by rewrite lookup_insert_eq.
Qed.


(** ** Unpatching twice *)

Lemma unwrap_all_free ks s :
  records_free s ks = true -> unwrap_all ks s = s.
Proof.
  unfold unwrap_all, records_free.
  induction ks as [|[[t n] w] ks IH]; [reflexivity|]. cbn [forallb foldl].
  intros [Hk Hrest]%andb_true_iff. apply bool_decide_eq_true in Hk.
  rewrite unwrap_state_noop by done. by apply IH.
Qed.

Lemma records_free_unwrap_all s pD pS :
  records_free (unwrap_all (patch_list pD pS) s) (patch_list pD pS) = true.
Proof.
  unfold records_free, unwrap_all. cbn [patch_list foldl forallb].
  repeat (rewrite ?unwrap_state_record_ne by congruence;
          rewrite unwrap_state_record_eq).
  reflexivity.
Qed.

Lemma module_targets_unwrap_all s pD pS m :
  module_targets (heap (unwrap_all (patch_list pD pS) s)) m
  = module_targets (heap s) m.
Proof.
  unfold module_targets, unwrap_all. cbn [patch_list foldl].
  rewrite !unwrap_state_read by congruence. reflexivity.
Qed.

(** X9. Unpatching is idempotent and needs no preceding patch: when the
    unpatch callback completes, it returns [undefined] with an empty trace,
    and running it again changes nothing; on a state whose patch record
    has none of the five members it changes nothing at all. *)
Theorem unpatch_idempotent m s :
  (forall r s1 l,
      unpatch m s = Res (Normal r) s1 l ->
      r = VUndefined /\ l = []
      /\ unpatch m s1 = Res (Normal VUndefined) s1 [])
  /\ (forall pD pS,
        module_targets (heap s) m = Some (pD, pS) ->
        records_free s (patch_list pD pS) = true ->
        unpatch m s = Res (Normal VUndefined) s []).
Proof.
  split.
  - intros r s1 l Hu. pose proof (unpatch_cases m s) as Hc.
    destruct (module_targets (heap s) m) as [[pD pS]|] eqn:Ht.
    + pose proof (unpatch_cases m (unwrap_all (patch_list pD pS) s)) as Hc'.
      rewrite module_targets_unwrap_all, Ht in Hc'.
      rewrite (unwrap_all_free _ (unwrap_all (patch_list pD pS) s)) in Hc'
        by apply records_free_unwrap_all.
      remember (unwrap_all (patch_list pD pS) s) as U.
      rewrite Hc in Hu. injection Hu as Hr Hs Hl. subst r s1 l.
      done.
    + destruct Hc as (e & s' & Hc). congruence.
  - intros pD pS Ht Hfree. pose proof (unpatch_cases m s) as Hc.
    rewrite Ht in Hc. rewrite Hc, unwrap_all_free by done. reflexivity.
Qed.

(** * The instrumentation in use *)

Lemma patch_record_patches s s' t n :
  patches s = patches s' -> patch_record s t n = patch_record s' t n.
Proof. intros Hp. destruct t; try reflexivity. cbn. by rewrite Hp. Qed.

Lemma new_error_read name msg h v k :
  k ≠ "name" -> k ≠ "message" ->
  read_prop (snd (new_error name msg h)) v k = read_prop h v k.
Proof.
  intros Hn Hm. unfold new_error. cbn.
  apply read_after_error.
  - apply not_elem_of_dom, is_fresh.
  - rewrite lookup_insert_ne by done. by rewrite lookup_singleton_ne.
Qed.

Lemma member_name pD pS t n w :
  (t, n, w) ∈ patch_list pD pS -> n ≠ "name" /\ n ≠ "message".
Proof.
  unfold patch_list. intros Hin.
  repeat (apply elem_of_cons in Hin as [[= -> -> ->]|Hin]);
    [..|by apply elem_of_nil in Hin]; done.
Qed.

(** A call keeps the module as it finds it. *)
Lemma heap_after_call_keeps m h h' pD pS :
  client_keeps m ->
  module_targets h m = Some (pD, pS) ->
  heap_after_call h h' ->
  module_targets h' m = Some (pD, pS)
  /\ forall t n w,
       (t, n, w) ∈ patch_list pD pS -> read_prop h' t n = read_prop h t n.
Proof.
  intros Hk Ht [(id & this & params & ->)|(name & msg & ->)].
  - by apply Hk.
  - split.
    + unfold module_targets in *. by rewrite !new_error_read.
    + intros t n w Hin. destruct (member_name _ _ _ _ _ Hin).
      by apply new_error_read.
Qed.

(** A call of a function object changes neither the patch record nor the
    instrumentation object, and the heap as one call of the client or one
    error does. *)
Lemma func_code_effect g : forall this params s,
  let r := func_code g this params s in
  patches (final r) = patches s
  /\ instr (final r) = instr s
  /\ heap_after_call (heap s) (heap (final r)).
Proof.
  induction g as [name id | w g IH]; intros this params s r; subst r.
  - cbn [func_code]. unfold run_native.
    destruct (native_code id this params (heap s)) as [c h] eqn:E. cbn.
    split; [done|]. split; [done|]. left. exists id, this, params.
    by rewrite E.
  - destruct (receiver_ok w this) eqn:Hok.
    + rewrite closure_run by done. cbn zeta. cbn [final].
      apply (IH this params (set_next_span (S (next_span s)) s)).
    + rewrite closure_nullish_receiver by done. unfold throw_error.
      destruct (new_error "TypeError" (cannot_read this "sourceSQL") (heap s))
        as [l h] eqn:E. cbn.
      split; [done|]. split; [done|]. right. eexists _, _. by rewrite E.
Qed.

Lemma throw_error_effect {A} name msg s :
  let r := @throw_error A name msg s in
  patches (final r) = patches s
  /\ instr (final r) = instr s
  /\ heap_after_call (heap s) (heap (final r)).
Proof.
  cbn zeta. unfold throw_error.
  destruct (new_error name msg (heap s)) as [l h] eqn:E. cbn.
  split; [done|]. split; [done|]. right. eexists _, _. by rewrite E.
Qed.

Lemma invoke_effect t n this params s :
  let r := invoke t n this params s in
  patches (final r) = patches s
  /\ instr (final r) = instr s
  /\ heap_after_call (heap s) (heap (final r)).
Proof.
  cbn zeta. unfold invoke. rewrite bind_get_prop.
  destruct (nullish t); [apply throw_error_effect|].
  unfold call. destruct (read_prop (heap s) t n);
    try apply throw_error_effect.
  apply func_code_effect.
Qed.

Lemma members_call m s0 pD pS b t n this params s :
  client_keeps m ->
  members m s0 pD pS b s ->
  members m s0 pD pS b (final (invoke t n this params s))
  /\ instr (final (invoke t n this params s)) = instr s.
Proof.
  intros Hk [Ht Hm].
  destruct (invoke_effect t n this params s) as (Hp & Hi & Hh).
  destruct (heap_after_call_keeps m _ _ pD pS Hk Ht Hh) as [Ht' Hr].
  split; [|exact Hi]. split; [exact Ht'|].
  intros t' n' w Hin. destruct (Hm t' n' w Hin) as (id & H0 & Hb).
  exists id. split; [exact H0|].
  rewrite (Hr _ _ _ Hin), (patch_record_patches _ s) by done. exact Hb.
Qed.

Lemma members_set_instr m s0 pD pS b i s :
  members m s0 pD pS b s -> members m s0 pD pS b (set_instr i s).
Proof.
  intros [Ht Hm]. split; [exact Ht|]. intros t n w Hin.
  destruct (Hm t n w Hin) as (id & H0 & Hb). exists id. split; [exact H0|].
  cbn [heap set_instr]. rewrite (patch_record_patches _ s) by done. exact Hb.
Qed.

Lemma members_free m s0 pD pS s :
  members m s0 pD pS false s -> records_free s (patch_list pD pS) = true.
Proof.
  intros [_ Hm]. unfold records_free. apply forallb_forall.
  intros [[t n] w] Hin%list_elem_of_In.
  destruct (Hm t n w Hin) as (id & _ & _ & Hrec).
  by apply bool_decide_eq_true.
Qed.

(** What [unwrap_all] does to a member that is in the patch record. *)
Lemma unwrap_all_member s pD pS t n w f g :
  (t, n, w) ∈ patch_list pD pS ->
  read_prop (heap s) t n = VFun g ->
  patch_record s t n = Some f ->
  read_prop (heap (unwrap_all (patch_list pD pS) s)) t n = VFun f
  /\ patch_record (unwrap_all (patch_list pD pS) s) t n = None.
Proof.
  intros Hin Hread Hrec.
  destruct (read_prop_fun_object _ _ _ _ Hread) as (l & -> & Hobj).
  assert (Hself : forall s', patches s' !! (l, n) = Some f ->
                    is_Some (heap s' !! l) ->
                    read_prop (heap (unwrap_state (VObj l) n s')) (VObj l) n
                    = VFun f) by (intros; by apply unwrap_state_self).
  unfold unwrap_all. cbn [foldl patch_list]. unfold patch_list in Hin.
  repeat (apply elem_of_cons in Hin as [[= <- -> ->]|Hin]);
    [..|by apply elem_of_nil in Hin].
  all: split;
    [ rewrite ?unwrap_state_read by congruence
    | rewrite ?unwrap_state_record_ne by congruence;
      apply unwrap_state_record_eq ].
  all: apply Hself.
  all: try (change (patches ?x !! (l, ?k)) with (patch_record x (VObj l) k);
            rewrite ?unwrap_state_record_ne by congruence; exact Hrec).
  all: rewrite ?unwrap_state_is_Some; exact Hobj.
Qed.

Lemma members_patch m s0 pD pS s i :
  members m s0 pD pS false s ->
  (patch m >> ret tt) (set_instr i s)
  = Res (Normal tt) (set_instr i (wrap_all (patch_list pD pS) s)) []
  /\ members m s0 pD pS true (wrap_all (patch_list pD pS) s).
Proof.
  intros Hmem. pose proof (members_free _ _ _ _ _ Hmem) as Hfree.
  destruct Hmem as [Ht Hm]. split.
  - by apply bind_patch_unpatched.
  - split; [by apply module_targets_wrap_all|].
    intros t n w Hin. destruct (Hm t n w Hin) as (id & H0 & Hread & _).
    exists id. split; [exact H0|]. by apply wrap_all_member.
Qed.

Lemma members_unpatch m s0 pD pS s i :
  members m s0 pD pS true s ->
  (unpatch m >> ret tt) (set_instr i s)
  = Res (Normal tt) (set_instr i (unwrap_all (patch_list pD pS) s)) []
  /\ members m s0 pD pS false (unwrap_all (patch_list pD pS) s).
Proof.
  intros [Ht Hm]. split.
  - unfold bind. pose proof (unpatch_cases m (set_instr i s)) as Hc.
    cbn [heap set_instr] in Hc. rewrite Ht in Hc.
    rewrite Hc, unwrap_all_set_instr. reflexivity.
  - split; [by rewrite module_targets_unwrap_all|].
    intros t n w Hin. destruct (Hm t n w Hin) as (id & H0 & Hread & Hrec).
    exists id. split; [exact H0|]. by eapply unwrap_all_member.
Qed.

Lemma state_eta s : set_instr (instr s) s = s.
Proof. by destruct s. Qed.

(** Every use keeps the invariant. *)
Lemma serving_step m s0 pD pS s u :
  client_keeps m ->
  serving m s0 pD pS s ->
  serving m s0 pD pS (final (perform_use m u s)).
Proof.
  intros Hk [Hmem Hmo]. unfold serving.
  rewrite <- (state_eta s) in Hmem |- *.
  destruct s as [h p i n]. cbn [instr set_instr heap patches next_span]
    in Hmem, Hmo |- *.
  set (s := State h p i n) in *.
  destruct i as [nm ver cfg tr en mo]. cbn in Hmo.
  unfold installed in Hmem. cbn [_enabled _moduleExports] in Hmem.
  destruct u as [[| | |prov]|t n' this params]; cbn [perform_use perform].
  - (* enable *)
    unfold enable. cbn [instr set_instr _enabled _moduleExports].
    destruct en; [by split|].
    rewrite bind_update_instr. cbn [instr set_instr with_enabled
      instrumentationName instrumentationVersion _config _tracer _enabled
      _moduleExports andb] in Hmem |- *.
    destruct Hmo as [->| ->].
    + cbn. split; [|by left].
      by apply (members_set_instr _ _ _ _ false).
    + rewrite run_hooks_patch.
      destruct (members_patch m s0 pD pS s
                  (Instrumentation nm ver cfg tr true (Some m)) Hmem)
        as [Hrun Hmem'].
      change (set_instr _ (set_instr _ s)) with
        (set_instr (Instrumentation nm ver cfg tr true (Some m)) s).
      rewrite Hrun. cbn [final instr set_instr]. split; [|by right].
      unfold installed. cbn [_enabled _moduleExports].
      rewrite bool_decide_eq_true_2 by eauto.
      by apply (members_set_instr _ _ _ _ true).
  - (* disable *)
    unfold disable. cbn [instr set_instr _enabled _moduleExports].
    destruct en; [|by split].
    rewrite bind_update_instr. cbn [instr set_instr with_enabled
      instrumentationName instrumentationVersion _config _tracer _enabled
      _moduleExports andb] in Hmem |- *.
    destruct Hmo as [->| ->].
    + cbn. split; [|by left].
      by apply (members_set_instr _ _ _ _ false).
    + rewrite run_hooks_unpatch.
      rewrite bool_decide_eq_true_2 in Hmem by eauto.
      destruct (members_unpatch m s0 pD pS s
                  (Instrumentation nm ver cfg tr false (Some m)) Hmem)
        as [Hrun Hmem'].
      change (set_instr _ (set_instr _ s)) with
        (set_instr (Instrumentation nm ver cfg tr false (Some m)) s).
      rewrite Hrun. cbn [final instr set_instr]. split; [|by right].
      unfold installed. cbn [_enabled andb].
      by apply (members_set_instr _ _ _ _ false).
  - (* the module is loaded *)
    destruct Hmo as [->| ->].
    + rewrite (bool_decide_eq_false_2 (is_Some None)) in Hmem
        by (intros [? ?]; discriminate).
      rewrite andb_false_r in Hmem.
      destruct en.
      * destruct (members_patch m s0 pD pS s
                    (Instrumentation nm ver cfg tr true (Some m)) Hmem)
          as [Hrun Hmem'].
        assert (Hon : onRequire m s
                      = Res (Normal m)
                          (set_instr
                             (Instrumentation nm ver cfg tr true (Some m))
                             (wrap_all (patch_list pD pS) s)) []).
        { unfold onRequire. cbn [s instr _moduleExports _enabled].
          rewrite bind_update_instr.
          change (run_hooks module_patch m) with (patch m >> ret tt).
          unfold bind at 1.
          change (set_instr (with_moduleExports (Some m) (instr s)) s)
            with (set_instr (Instrumentation nm ver cfg tr true (Some m)) s).
          rewrite Hrun. reflexivity. }
        change (set_instr (Instrumentation nm ver cfg tr true None) s)
          with s.
        unfold bind. rewrite Hon. cbn [final ret instr set_instr].
        split; [|by right].
        unfold installed. cbn [_enabled _moduleExports].
        rewrite bool_decide_eq_true_2 by eauto.
        by apply (members_set_instr _ _ _ _ true).
      * cbn. split; [|by right].
        by apply (members_set_instr _ _ _ _ false).
    + cbn. split; [exact Hmem | by right].
  - (* the tracer provider is set *)
    cbn. split; [|exact Hmo].
    by apply (members_set_instr _ _ _ _ (en && bool_decide (is_Some mo))).
  - (* a method is called *)
    change (set_instr (Instrumentation nm ver cfg tr en mo) s) with s.
    destruct (members_call m s0 pD pS _ t n' this params s Hk Hmem)
      as [Hmem' Hi].
    unfold bind.
    destruct (invoke t n' this params s) as [[v|e] s1 l1];
      cbn [final instr outcome trace ret] in Hi, Hmem' |- *;
      rewrite Hi; (split; [exact Hmem' | exact Hmo]).
Qed.

Lemma serving_init m s0 pD pS config :
  instr s0 = SqliteInstrumentation config ->
  module_targets (heap s0) m = Some (pD, pS) ->
  records_free s0 (patch_list pD pS) = true ->
  client_methods (heap s0) pD pS = true ->
  serving m s0 pD pS s0.
Proof.
  intros Hi Ht Hfree Hcl. unfold serving. rewrite Hi. cbn.
  split; [|by left]. split; [exact Ht|].
  intros t n w Hin.
  destruct (client_methods_member _ _ _ _ _ _ Hcl Hin) as (id & Hread).
  exists id. split; [exact Hread|]. split; [exact Hread|].
  by eapply records_free_member.
Qed.

Lemma in_use_serving m s0 pD pS config s :
  instr s0 = SqliteInstrumentation config ->
  module_targets (heap s0) m = Some (pD, pS) ->
  records_free s0 (patch_list pD pS) = true ->
  client_methods (heap s0) pD pS = true ->
  client_keeps m ->
  in_use m s0 s ->
  serving m s0 pD pS s.
Proof.
  intros Hi Ht Hfree Hcl Hk Hu. induction Hu as [|s u Hu IH].
  - by eapply serving_init.
  - by apply serving_step.
Qed.

(** C8, as amended.  In every state a program reaches by toggling the
    instrumentation and calling methods, in any order, with the
    instrumentation disabled: each of the five members of the prototypes
    is the very function of the client it was before any patch, so a call
    dispatched through the prototype leaves an empty trace (no span is
    recorded, whether the call returns or throws) and is the call of that
    function.  The client is taken not to redefine its own classes,
    prototypes and methods. *)
Theorem disabled_dispatch_records_no_span m s0 pD pS config s :
  instr s0 = SqliteInstrumentation config ->
  module_targets (heap s0) m = Some (pD, pS) ->
  records_free s0 (patch_list pD pS) = true ->
  client_methods (heap s0) pD pS = true ->
  client_keeps m ->
  in_use m s0 s ->
  _enabled (instr s) = false ->
  forall t n w this params,
    (t, n, w) ∈ patch_list pD pS ->
    trace (invoke t n this params s) = []
    /\ read_prop (heap s) t n = read_prop (heap s0) t n
    /\ patch_record s t n = None
    /\ exists id,
         read_prop (heap s) t n = VFun (Native n id)
         /\ invoke t n this params s = run_native id this params s.
Proof.
  intros Hi Ht Hfree Hcl Hk Hu Hen t n w this params Hin.
  destruct (in_use_serving m s0 pD pS config s Hi Ht Hfree Hcl Hk Hu)
    as [[_ Hmem] _].
  unfold installed in Hmem. rewrite Hen in Hmem. cbn [andb] in Hmem.
  destruct (Hmem t n w Hin) as (id & Hread0 & Hread & Hrec).
  rewrite (invoke_function _ _ _ _ _ _ Hread). cbn [func_code].
  split; [apply run_native_trace|]. split; [congruence|].
  split; [exact Hrec|]. eauto.
Qed.

End Properties.

(** * The statements at work on the sample client *)

(** C1 on concrete calls: [exec] returns [undefined] through [genericWrap]
    and through the closure. *)
Lemma genericWrap_returns_result_witness :
  genericWrap (@func_operation sample_client (Native "exec" 0)) (VObj 6)
    [VStr "CREATE TABLE t (id)"] 0 sample_state
  = Res (Normal VUndefined) sample_state
      [ EvApply "exec" (VObj 6) [VStr "CREATE TABLE t (id)"];
        EvSetStatus 0 {| code := OK; message := None |};
        EvEnd 0 ]
  /\ outcome (@func_code sample_client (Native "get" 3) (VObj 7) []
                sample_state) = Normal (VNum 1)
  /\ outcome (@func_code sample_client
                (Closure StatementExecution (Native "get" 3)) (VObj 7) []
                sample_state) = Normal (VNum 1).
Proof.
  pose proof (@genericWrap_returns_result sample_client) as (T1 & T2 & T3).
  split; [|split].
  - apply (T1 (@func_operation sample_client (Native "exec" 0))
              _ _ _ _ _ _ []).
    reflexivity.
  - apply (T2 StatementExecution). apply T3; reflexivity.
  - apply T3; reflexivity.
Defined.


(** C9 on a concrete call: a function that throws [null]. *)
Lemma genericWrap_tolerates_missing_message_witness :
  genericWrap (@func_operation sample_client (Native "boom" 5)) VUndefined []
    3 sample_state
  = Res (Throw VNull) sample_state
      [ EvApply "boom" VUndefined [];
        EvSetStatus 3 {| code := ERROR; message := Some VUndefined |};
        EvEnd 3 ].
Proof.
  apply (genericWrap_tolerates_missing_message
           (@func_operation sample_client (Native "boom" 5))
           VUndefined [] 3%nat sample_state VNull sample_state []);
    reflexivity.
Defined.

(** C6 on the sample module: patch, then unpatch. *)
Lemma unpatch_after_patch_witness :
  let s1 := final (patch (VObj 1) sample_state) in
  patch (VObj 1) sample_state = Res (Normal (VObj 1)) s1 []
  /\ unpatch (VObj 1) s1 = Res (Normal VUndefined) sample_state []
  /\ read_prop (heap s1) (VObj 4) "exec"
     = VFun (Closure ExecWrapper (Native "exec" 0))
  /\ read_prop (heap (final (unpatch (VObj 1) s1))) (VObj 4) "exec"
     = VFun (Native "exec" 0).
Proof.
  intros s1.
  assert (Hp : patch (VObj 1) sample_state = Res (Normal (VObj 1)) s1 [])
    by (vm_compute; reflexivity).
  pose proof (@unpatch_after_patch sample_client (VObj 1) sample_state
                (VObj 1) s1 [] Hp) as (T1 & T2 & _).
  split; [exact Hp|]. split; [exact T1|]. split; [reflexivity|].
  rewrite T2. reflexivity.
Defined.

(** C10 on the sample module: the exports come back, and [close] on the
    connection prototype and the exports object itself are as before. *)
Lemma patch_frame_witness :
  let s1 := final (patch (VObj 1) sample_state) in
  patch (VObj 1) sample_state = Res (Normal (VObj 1)) s1 []
  /\ heap s1 !! 4%positive ≫= (.!! "close")
     = Some (VFun (Native "close" 6))
  /\ heap s1 !! 1%positive = sample_heap !! 1%positive
  /\ instr s1 = instr sample_state.
Proof.
  intros s1.
  assert (Hp : patch (VObj 1) sample_state = Res (Normal (VObj 1)) s1 [])
    by (vm_compute; reflexivity).
  pose proof (patch_frame (VObj 1) sample_state
                (VObj 1) s1 [] Hp) as (_ & pD & pS & Ht & Hown & _ & Hi & _).
  injection Ht as <- <-.
  split; [exact Hp|]. split; [|split; [reflexivity | exact Hi]].
  rewrite Hown; [reflexivity|].
  unfold patched_member. intros [[_ [?|?]]|[? _]]; discriminate.
Defined.

Lemma sample_enabled_reachable :
  reachable (VObj 1) sample_state sample_enabled.
Proof. apply reachable_step, reachable_step, reachable_init. Defined.

Lemma sample_disabled_reachable :
  reachable (VObj 1) sample_state sample_disabled.
Proof. apply reachable_step, sample_enabled_reachable. Defined.

(** C7 on the sample module, loaded and enabled: [exec] is wrapped once,
    and every further action completes normally. *)
Lemma patch_record_invariant_witness :
  instr sample_state = @SqliteInstrumentation sample_client VUndefined
  /\ module_targets (heap sample_state) (VObj 1) = Some (VObj 4, VObj 5)
  /\ records_free sample_state (patch_list (VObj 4) (VObj 5)) = true
  /\ read_prop (heap sample_enabled) (VObj 4) "exec"
     = VFun (Closure ExecWrapper (Native "exec" 0))
  /\ patch_record sample_enabled (VObj 4) "exec" = Some (Native "exec" 0)
  /\ (forall a, outcome (perform (VObj 1) a sample_enabled) = Normal tt).
Proof.
  assert (Hi : instr sample_state = @SqliteInstrumentation sample_client
                                      VUndefined) by reflexivity.
  assert (Ht : module_targets (heap sample_state) (VObj 1)
               = Some (VObj 4, VObj 5)) by reflexivity.
  assert (Hf : records_free sample_state (patch_list (VObj 4) (VObj 5))
               = true) by reflexivity.
  pose proof (@patch_record_invariant sample_client (VObj 1) sample_state
                (VObj 4) (VObj 5) VUndefined sample_enabled Hi Ht Hf
                sample_enabled_reachable) as (T1 & T2 & _).
  split; [exact Hi|]. split; [exact Ht|]. split; [exact Hf|].
  pose proof (T1 (VObj 4) "exec" ExecWrapper (Native "exec" 0)
                (list_elem_of_here _ _) eq_refl) as Hm.
  change (installed (instr sample_enabled)) with true in Hm.
  destruct Hm as [Hread Hrec].
  split; [exact Hread|]. split; [exact Hrec | exact T2].
Defined.

(** C4 on the sample module, enabled: a call of [all] on a statement
    starts one span whose query text is the statement's source text, not
    the argument; [prepare] without arguments has an undefined query
    text. *)
Lemma span_attributes_by_category_witness :
  installed (instr sample_enabled) = true
  /\ (exists rest,
        trace (@invoke sample_client (VObj 5) "all" (VObj 7) [VNum 1]
                 sample_enabled)
        = EvStartSpan 0 (Tracer None "opentelemetry-instrumentation-sqlite"
                           "1.0.0") "all"
            {| kind := CLIENT;
               attributes :=
                 {[ ATTR_DB_SYSTEM := VStr "sqlite";
                    ATTR_DB_QUERY_TEXT := VStr "SELECT 1" ]} |}
            :: rest
        /\ count is_startSpan rest = 0%nat)
  /\ trace (prepare (@func_operation sample_client (Native "prepare" 1))
              (VObj 6) [] sample_state)
     = EvStartSpan 0 (_tracer (instr sample_state)) "prepare"
         {| kind := CLIENT;
            attributes :=
              {[ ATTR_DB_SYSTEM := VStr "sqlite";
                 ATTR_DB_QUERY_TEXT := VUndefined ]} |}
         :: trace (genericWrap
                     (@func_operation sample_client (Native "prepare" 1))
                     (VObj 6) [] 0 (set_next_span 1 sample_state)).
Proof.
  pose proof (@span_attributes_by_category sample_client)
    as (T1 & _ & _ & _ & _ & T6).
  assert (Hinst : installed (instr sample_enabled) = true) by reflexivity.
  split; [exact Hinst|]. split.
  - destruct (T6 (VObj 1) sample_state (VObj 4) (VObj 5) VUndefined
                sample_enabled (VObj 5) "all" StatementExecution (VObj 7)
                [VNum 1] eq_refl eq_refl eq_refl eq_refl
                sample_enabled_reachable Hinst
                (list_elem_of_further _ _ _
                   (list_elem_of_further _ _ _ (list_elem_of_here _ _)))
                eq_refl)
      as (id & rest & _ & Htrace & Hcount).
    exists rest. split; [exact Htrace | exact Hcount].
  - exact (T1 PrepareWrapper
              (@func_operation sample_client (Native "prepare" 1))
              (VObj 6) [] sample_state eq_refl).
Defined.

(** C5 on the sample module, enabled: the span of a call of [run] is a
    CLIENT span named [run] in the scope of the package, and there is
    exactly one. *)
Lemma span_kind_name_scope_witness :
  installed (instr sample_enabled) = true
  /\ Forall (span_started_as "run" CLIENT
               "opentelemetry-instrumentation-sqlite" "1.0.0")
            (trace (@invoke sample_client (VObj 5) "run" (VObj 7) []
                      sample_enabled))
  /\ count is_startSpan
       (trace (@invoke sample_client (VObj 5) "run" (VObj 7) []
                 sample_enabled)) = 1%nat.
Proof.
  pose proof (@span_kind_name_scope sample_client) as (_ & _ & T3).
  assert (Hinst : installed (instr sample_enabled) = true) by reflexivity.
  destruct (T3 (VObj 1) sample_state (VObj 4) (VObj 5) VUndefined
              sample_enabled (VObj 5) "run" StatementExecution (VObj 7) []
              eq_refl eq_refl eq_refl eq_refl sample_enabled_reachable Hinst
              (list_elem_of_further _ _ _
                 (list_elem_of_further _ _ _
                    (list_elem_of_further _ _ _
                       (list_elem_of_further _ _ _
                          (list_elem_of_here _ _))))))
    as (_ & Hall & Hone).
  split; [exact Hinst|]. split; [exact Hall | exact (Hone eq_refl)].
Defined.

(** * The further properties at work on the sample client *)

(** X1 on a failing [exec] inside its closure: the status set is the
    error with the message of the thrown object. *)
Lemma status_reflects_outcome_witness :
  Forall (fun e => forall sp st,
            e = EvSetStatus sp st ->
            st = {| code := ERROR; message := Some (VStr "syntax error") |})
         (trace (@func_code sample_client
                   (Closure ExecWrapper (Native "exec" 0)) (VObj 6)
                   [VStr "invalid-sql"] sample_state)).
Proof.
  eapply Forall_impl;
    [exact (@status_reflects_outcome sample_client
              (Closure ExecWrapper (Native "exec" 0)) (VObj 6)
              [VStr "invalid-sql"] sample_state)|].
  intros e He sp st Heq. destruct (He sp st Heq) as [-> _]. reflexivity.
Defined.

(** X2 on the nested sample: on a statement it completes as [all] of the
    client; on [undefined] it throws the [TypeError] of the read. *)
Lemma nested_call_transparent_witness :
  readable sample_nested (VObj 7) = true
  /\ agree (@func_code sample_client sample_nested (VObj 7) [VNum 1]
              sample_state)
           (@func_code sample_client (Native "all" 2) (VObj 7) [VNum 1]
              sample_state)
  /\ readable sample_nested VUndefined = false
  /\ agree (@func_code sample_client sample_nested VUndefined [VNum 1]
              sample_state)
           (throw_error "TypeError" (cannot_read VUndefined "sourceSQL")
              sample_state).
Proof.
  split; [reflexivity|]. split.
  - exact (proj1 (@nested_call_transparent sample_client sample_nested
                    (VObj 7) [VNum 1] sample_state) eq_refl).
  - split; [reflexivity|].
    exact (proj2 (@nested_call_transparent sample_client sample_nested
                    VUndefined [VNum 1] sample_state) eq_refl).
Defined.

(** X3 on the nested sample: two spans, the outer named after the
    statement closure, the inner after [all]. *)
Lemma nested_call_run_witness :
  readable sample_nested (VObj 7) = true
  /\ trace (@func_code sample_client sample_nested (VObj 7) [VNum 1]
              sample_state)
     = [ EvStartSpan 0 (_tracer (instr sample_state)) "statementExecution"
           {| kind := CLIENT;
              attributes := {[ ATTR_DB_SYSTEM := VStr "sqlite" ]} |};
         EvApply "statementExecution" (VObj 7) [VNum 1];
         EvStartSpan 1 (_tracer (instr sample_state)) "all"
           {| kind := CLIENT;
              attributes := {[ ATTR_DB_SYSTEM := VStr "sqlite";
                               ATTR_DB_QUERY_TEXT := VStr "SELECT 1" ]} |};
         EvApply "all" (VObj 7) [VNum 1];
         EvSetStatus 1 {| code := OK; message := None |};
         EvEnd 1;
         EvSetStatus 0 {| code := OK; message := None |};
         EvEnd 0 ].
Proof.
  split; [reflexivity|].
  rewrite (@nested_call_run sample_client sample_nested (VObj 7) [VNum 1]
             sample_state eq_refl).
  reflexivity.
Defined.

(** X6 on the sample module: [exec] keeps its name, [all] does not. *)
Lemma names_after_patch_witness :
  let s1 := final (patch (VObj 1) sample_state) in
  patch (VObj 1) sample_state = Res (Normal (VObj 1)) s1 []
  /\ read_prop (heap s1) (read_prop (heap s1) (VObj 4) "exec") "name"
     = VStr "exec"
  /\ read_prop (heap s1) (read_prop (heap s1) (VObj 5) "all") "name"
     = VStr "statementExecution".
Proof.
  intros s1.
  assert (Hp : patch (VObj 1) sample_state = Res (Normal (VObj 1)) s1 [])
    by (vm_compute; reflexivity).
  pose proof (@names_after_patch sample_client) as [T _].
  split; [exact Hp|]. split.
  - exact (proj2 (T (VObj 1) sample_state (VObj 1) s1 [] (VObj 4) (VObj 5)
                    (VObj 4) "exec" ExecWrapper Hp eq_refl eq_refl
                    (list_elem_of_here _ _))).
  - exact (proj2 (T (VObj 1) sample_state (VObj 1) s1 [] (VObj 4) (VObj 5)
                    (VObj 5) "all" StatementExecution Hp eq_refl eq_refl
                    (list_elem_of_further _ _ _
                       (list_elem_of_further _ _ _
                          (list_elem_of_here _ _))))).
Defined.


(** X9 on the sample module, never patched. *)
Lemma unpatch_idempotent_witness :
  unpatch (VObj 1) sample_state = Res (Normal VUndefined) sample_state []
  /\ unpatch (VObj 1) (final (unpatch (VObj 1) sample_state))
     = Res (Normal VUndefined) (final (unpatch (VObj 1) sample_state)) [].
Proof.
  pose proof (unpatch_idempotent (VObj 1) sample_state) as [T1 T2].
  assert (Hu : unpatch (VObj 1) sample_state
               = Res (Normal VUndefined) sample_state [])
    by (exact (T2 (VObj 4) (VObj 5) eq_refl eq_refl)).
  split; [exact Hu|].
  destruct (T1 VUndefined sample_state [] Hu) as (_ & _ & Hu2).
  rewrite Hu. exact Hu2.
Defined.

(** * The instrumentation in use, on the sample client *)

Lemma sample_enabled_in_use :
  @in_use sample_client (VObj 1) sample_state sample_enabled.
Proof.
  exact (in_use_step _ _ _ (Toggle Enable)
           (in_use_step _ _ _ (Toggle Load) (in_use_init _ _))).
Defined.

Lemma sample_used_in_use :
  @in_use sample_client (VObj 1) sample_state sample_used.
Proof.
  exact (in_use_step _ _ _ (Toggle Disable)
           (in_use_step _ _ _
              (Call (VObj 4) "prepare" (VObj 6) [VStr "SELECT 2"])
              sample_enabled_in_use)).
Defined.

(** The sample client keeps its module: it leaves the heap alone, or adds
    an error object or a statement object, none of which has a property
    the callbacks read. *)
Lemma sample_alloc_keeps h (o : gmap string value) m pD pS :
  o !! "DatabaseSync" = None /\ o !! "StatementSync" = None
  /\ o !! "prototype" = None /\ o !! "exec" = None /\ o !! "prepare" = None
  /\ o !! "all" = None /\ o !! "get" = None /\ o !! "run" = None ->
  module_targets h m = Some (pD, pS) ->
  module_targets (<[fresh (dom h) := o]> h) m = Some (pD, pS)
  /\ forall t n w,
       (t, n, w) ∈ patch_list pD pS ->
       read_prop (<[fresh (dom h) := o]> h) t n = read_prop h t n.
Proof.
  intros (O1 & O2 & O3 & O4 & O5 & O6 & O7 & O8) Ht.
  assert (Hfresh : h !! fresh (dom h) = None)
    by apply not_elem_of_dom, is_fresh.
  split.
  - unfold module_targets in *.
    rewrite !read_after_error by assumption. exact Ht.
  - intros t n w Hin. apply read_after_error; [exact Hfresh|].
    unfold patch_list in Hin.
    repeat (apply elem_of_cons in Hin as [[= -> -> ->]|Hin]);
      [..|by apply elem_of_nil in Hin]; assumption.
Qed.

Lemma sample_client_keeps : @client_keeps sample_client (VObj 1).
Proof.
  intros id this params h pD pS Ht. cbn [native_code sample_client].
  assert (Herr : forall name msg,
             module_targets (snd (sample_throw name msg h)) (VObj 1)
             = Some (pD, pS)
             /\ forall t n w,
                  (t, n, w) ∈ patch_list pD pS ->
                  read_prop (snd (sample_throw name msg h)) t n
                  = read_prop h t n).
  { intros name msg. cbv [sample_throw new_error]. cbn [snd].
    apply sample_alloc_keeps; [|exact Ht]. repeat split; reflexivity. }
  assert (Hstmt : forall sql,
             module_targets (<[fresh (dom h) := {[ "sourceSQL" := VStr sql ]}]> h)
               (VObj 1) = Some (pD, pS)
             /\ forall t n w,
                  (t, n, w) ∈ patch_list pD pS ->
                  read_prop (<[fresh (dom h) := {[ "sourceSQL" := VStr sql ]}]> h)
                    t n = read_prop h t n).
  { intros sql. apply sample_alloc_keeps; [|exact Ht].
    repeat split; reflexivity. }
  unfold sample_native.
  destruct id as [|[|[|[|[|[|id]]]]]]; destruct params as [|[] params];
    try case_decide; cbn [snd]; first [ by split | apply Herr | apply Hstmt ].
Qed.

Lemma sample_traced_in_use :
  @in_use sample_client (VObj 1) sample_state sample_traced.
Proof.
  exact (in_use_step _ _ _ (Toggle Enable)
           (in_use_step _ _ _ (Toggle (SetTracerProvider 1))
              (in_use_step _ _ _ (Toggle Load) (in_use_init _ _)))).
Defined.

Lemma sample_traced_off_in_use :
  @in_use sample_client (VObj 1) sample_state sample_traced_off.
Proof. exact (in_use_step _ _ _ (Toggle Disable) sample_traced_in_use). Defined.

(** C8 as stated fails.  On the sample client with a tracer provider set,
    a program reads [exec] from the prototype while the instrumentation is
    enabled and keeps the function; after [disable()] the instrumentation
    is disabled, and calling the kept function runs [exec] and still
    records a span: started, given its status and ended. *)
Lemma disabled_retained_closure_records_span :
  @in_use sample_client (VObj 1) sample_state sample_traced
  /\ read_prop (heap sample_traced) (VObj 4) "exec"
     = VFun (Closure ExecWrapper (Native "exec" 0))
  /\ @in_use sample_client (VObj 1) sample_state sample_traced_off
  /\ _enabled (instr sample_traced_off) = false
  /\ trace (@call sample_client
              (VFun (Closure ExecWrapper (Native "exec" 0))) (VObj 6)
              [VStr "SELECT 1"] sample_traced_off)
     = [ EvStartSpan 0
           (Tracer (Some 1) "opentelemetry-instrumentation-sqlite" "1.0.0")
           "exec"
           {| kind := CLIENT;
              attributes := {[ ATTR_DB_SYSTEM := VStr "sqlite" ]} |};
         EvApply "exec" (VObj 6) [VStr "SELECT 1"];
         EvSetStatus 0 {| code := OK; message := None |};
         EvEnd 0 ].
Proof.
  split; [exact sample_traced_in_use|]. split; [reflexivity|].
  split; [exact sample_traced_off_in_use|]. split; reflexivity.
Qed.

(** C8 as amended, after the sample client has been used: enabled, a
    statement prepared, disabled; a failing [exec] through the prototype
    records nothing and is the client's own [exec]. *)
Lemma disabled_dispatch_records_no_span_witness :
  client_methods (heap sample_state) (VObj 4) (VObj 5) = true
  /\ _enabled (instr sample_used) = false
  /\ trace (@invoke sample_client (VObj 4) "exec" (VObj 6)
              [VStr "invalid-sql"] sample_used) = []
  /\ read_prop (heap sample_used) (VObj 4) "exec"
     = read_prop (heap sample_state) (VObj 4) "exec"
  /\ heap sample_used ≠ heap sample_state.
Proof.
  assert (Hc : client_methods (heap sample_state) (VObj 4) (VObj 5) = true)
    by reflexivity.
  assert (He : _enabled (instr sample_used) = false) by reflexivity.
  pose proof (@disabled_dispatch_records_no_span sample_client (VObj 1)
                sample_state (VObj 4) (VObj 5) VUndefined sample_used
                eq_refl eq_refl eq_refl Hc sample_client_keeps
                sample_used_in_use He
                (VObj 4) "exec" ExecWrapper (VObj 6) [VStr "invalid-sql"]
                (list_elem_of_here _ _)) as (T1 & T2 & _).
  split; [exact Hc|]. split; [exact He|]. split; [exact T1|].
  split; [exact T2|].
  intros Heq. apply (f_equal (fun h => h !! 9%positive)) in Heq.
  vm_compute in Heq. discriminate.
Defined.
